(** * lean-coding-template: the bash session, its manager, the grading
      pipeline and the grade record

    A shallow embedding of
    - [environment/bash_session.py]: [_BashSession] and [BashSessionManager],
    - [environment/grading.py]: [GradingRunner],
    - [server/spec.py]: [Grade.score], [ProblemSpec],
    - [server/main.py]: [_get_spec], [grade_problem],
    - [environment/server.py]: the [/bash], [/grade] and [/validate] handlers,
    followed by the properties of the specification stated over it and by
    further properties read off the code.

    Conventions of the embedding.
    - A [bytes] value is a [string], one [ascii] per byte.  A Python [str] is
      held as its UTF-8 encoding, so [decode] succeeds exactly on the byte
      strings that are well-formed UTF-8 and then returns them unchanged;
      [len], [s[:n]] and [s.index] count characters, not bytes.
    - A method that mutates [self] returns the new [self]; a method that may
      raise returns an [outcome].
    - What the operating system decides (what the shell prints and when, how
      many polls fit before the deadline, whether a temporary file can be
      written, the exit code of an external command) is an argument of the
      method: every theorem quantifies over it.
    - A Python [float] is a binary64 [float] of the kernel, with its
      rounding, infinities, signed zeros and NaN; a [dict] is the list of its
      items in insertion order.  [sum] rounds differently before and from
      CPython 3.12: every theorem about [Grade.score] holds for both. *)

From Stdlib Require Import String Ascii List ZArith Lia DecimalString Floats.
From stdpp Require Import gmap strings.
Import ListNotations.

Open Scope string_scope.

Set Warnings "-abstract-large-number,-inexact-float".

(** ** Strings *)

Module Str.

(** The one-character strings that cannot be written inside a literal. *)
Definition nl : string := String (ascii_of_nat 10) EmptyString.
Definition dq : string := String (ascii_of_nat 34) EmptyString.

(** [pat in s]. *)
Definition contains (pat s : string) : bool :=
  match String.index 0 pat s with Some _ => true | None => false end.

(** [s[:n]]. *)
Definition take (n : nat) (s : string) : string := String.substring 0 n s.

(** [s[n:]]. *)
Definition drop (n : nat) (s : string) : string :=
  String.substring n (String.length s - n) s.

(** [s.endswith(suffix)]. *)
Definition endswith (s suffix : string) : bool :=
  (String.length suffix <=? String.length s)%nat &&
  String.eqb (drop (String.length s - String.length suffix) s) suffix.

(** [str(n)] for an [int]. *)
Definition of_int (n : Z) : string := NilZero.string_of_int (Z.to_int n).

(** [sep.join(l)]. *)
Fixpoint join (sep : string) (l : list string) : string :=
  match l with
  | [] => EmptyString
  | [x] => x
  | x :: rest => x +:+ sep +:+ join sep rest
  end.

(** [''.join(l)]. *)
Definition concat (l : list string) : string := fold_right String.append EmptyString l.

(** *** UTF-8 *)

Definition byte (c : ascii) : N := N_of_ascii c.

Definition between (lo hi : N) (c : ascii) : bool :=
  ((lo <=? byte c) && (byte c <=? hi))%N.

(** A continuation byte, [10xxxxxx]: every byte of a character's encoding
    but the first. *)
Definition continuation (c : ascii) : bool := between 128 191 c.

(** The second byte of a three-byte and of a four-byte sequence: [E0] admits
    no overlong form, [ED] no surrogate, [F0] no overlong form and [F4]
    nothing above [U+10FFFF]. *)
Definition second_of_3 (lead c : ascii) : bool :=
  if (byte lead =? 224)%N then between 160 191 c
  else if (byte lead =? 237)%N then between 128 159 c
  else continuation c.

Definition second_of_4 (lead c : ascii) : bool :=
  if (byte lead =? 240)%N then between 144 191 c
  else if (byte lead =? 244)%N then between 128 143 c
  else continuation c.

(** Well-formed UTF-8, as the strict decoder of [bytes.decode()] accepts it:
    [00..7F], [C2..DF] with one continuation byte, [E0..EF] with two and
    [F0..F4] with three.  A sequence cut short by the end of the bytes is
    not well formed. *)
Fixpoint utf8_valid (s : string) : bool :=
  match s with
  | EmptyString => true
  | String a r =>
      if (byte a <? 128)%N then utf8_valid r
      else if between 194 223 a then
        match r with
        | String b r => continuation b && utf8_valid r
        | _ => false
        end
      else if between 224 239 a then
        match r with
        | String b (String c r) => second_of_3 a b && continuation c && utf8_valid r
        | _ => false
        end
      else if between 240 244 a then
        match r with
        | String b (String c (String d r)) =>
            second_of_4 a b && continuation c && continuation d && utf8_valid r
        | _ => false
        end
      else false
  end.

(** [b.decode()]: the text, or [None] where it raises [UnicodeDecodeError]. *)
Definition decode (b : string) : option string :=
  if utf8_valid b then Some b else None.

(** [len(s)]: one character per byte that is not a continuation byte. *)
Fixpoint char_length (s : string) : nat :=
  match s with
  | EmptyString => 0
  | String c r => (if continuation c then 0 else 1) + char_length r
  end.

(** [s[:n]]: the bytes of the first [n] characters. *)
Fixpoint take_chars (n : nat) (s : string) : string :=
  match s with
  | EmptyString => EmptyString
  | String c r =>
      if continuation c then String c (take_chars n r)
      else
        match n with
        | O => EmptyString
        | S m => String c (take_chars m r)
        end
  end.

(** [s.index(pat)] where [pat in s]: the number of characters before the
    first occurrence.  No character's UTF-8 encoding starts inside
    another's, so [pat] first occurs in the text where its bytes first occur
    in the bytes of the text. *)
Definition index_of (pat s : string) : option nat :=
  match String.index 0 pat s with
  | Some i => Some (char_length (take i s))
  | None => None
  end.

End Str.

(** ** Exceptions and results *)

(** Modelled from the spec: [environment/base.py], which declares [ToolError],
    [ToolResult] and [CLIResult], is not among the sources.  [ToolError] is
    the error of section 7 of the specification, built from one message and
    read back by [environment/server.py] as [e.message]; that file lists
    [except ToolError] before [except Exception], the order a subclass of
    [Exception] needs.  The other constructors are built-in exceptions of
    Python, all of them subclasses of [Exception] too. *)
Inductive exn : Type :=
  | ToolError (message : string)
  | UnboundLocalError (name : string)
  | AttributeError (name : string)
  | OSError
  | FileNotFoundError
  | UnicodeDecodeError
  | AssertionError
  | ValueError
  | KeyError (key : string)
  | CalledProcessError
  | TimeoutExpired.

(** What a call does: it returns a value or raises. *)
Inductive outcome (A : Type) : Type :=
  | Returned (a : A)
  | Raised (e : exn).
Arguments Returned {A} a.
Arguments Raised {A} e.

(** Sequencing: the first exception raised ends the computation. *)
Definition bind {A B : Type} (m : outcome A) (k : A -> outcome B) : outcome B :=
  match m with
  | Returned a => k a
  | Raised e => Raised e
  end.

Notation "x <- m ;; k" := (bind m (fun x => k))
  (at level 100, m at next level, right associativity).

(** [assert b]. *)
Definition py_assert (b : bool) : outcome unit :=
  if b then Returned tt else Raised AssertionError.

(** [try: body except Exception: handler]: every class of [exn] is a subclass
    of [Exception], so whatever [body] raises is replaced by [handler]. *)
Definition try_except_Exception {A : Type} (body handler : outcome A) : outcome A :=
  match body with
  | Returned a => Returned a
  | Raised _ => handler
  end.

Inductive result_class : Type := ToolResult_class | CLIResult_class.

(** Modelled from the spec: [ToolResult] is [{output, error, system?, image?}]
    (section 3), every field optional; [environment/server.py] reads the four
    fields under these names.  [CLIResult] is the same record under another
    class name. *)
Record ToolResult : Type := {
  result_cls : result_class;
  output : option string;
  error : option string;
  base64_image : option string;
  system : option string
}.

Definition mkToolResult (o e sys : option string) : ToolResult :=
  {| result_cls := ToolResult_class; output := o; error := e;
     base64_image := None; system := sys |}.

Definition CLIResult (o e : string) : ToolResult :=
  {| result_cls := CLIResult_class; output := Some o; error := Some e;
     base64_image := None; system := None |}.

(** ** The shell process *)

(** What a session does to its process, in the order it does it. *)
Inductive io_event : Type :=
  | StdinWrite (data : string)  (* [stdin.write(data)] *)
  | StdinDrain                  (* [await stdin.drain()] *)
  | ReadStdout                  (* [stdout._buffer.decode()] *)
  | ReadStderr                  (* [stderr._buffer.decode()] *)
  | ClearStdout                 (* [stdout._buffer.clear()] *)
  | ClearStderr                 (* [stderr._buffer.clear()] *)
  | Terminate.                  (* [terminate()] *)

(** An [asyncio.subprocess.Process]: its identity, its exit code once it has
    exited, the two stream buffers, and the log of the I/O done on it. *)
Record Process : Type := {
  pid : nat;
  returncode : option Z;
  stdout_buffer : string;
  stderr_buffer : string;
  io : list io_event
}.

(** The handle [create_subprocess_shell] returns. *)
Definition spawn (n : nat) : Process :=
  {| pid := n; returncode := None; stdout_buffer := EmptyString;
     stderr_buffer := EmptyString; io := [] |}.

Definition log (ev : list io_event) (p : Process) : Process :=
  {| pid := pid p; returncode := returncode p; stdout_buffer := stdout_buffer p;
     stderr_buffer := stderr_buffer p; io := io p ++ ev |}.

(** The stream readers append what the shell prints to the buffers. *)
Definition feed (chunk : string * string) (p : Process) : Process :=
  {| pid := pid p; returncode := returncode p;
     stdout_buffer := stdout_buffer p +:+ fst chunk;
     stderr_buffer := stderr_buffer p +:+ snd chunk; io := io p |}.

(** The shell exits with code [code]. *)
Definition exits (code : Z) (p : Process) : Process :=
  {| pid := pid p;
     returncode := match returncode p with Some c => Some c | None => Some code end;
     stdout_buffer := stdout_buffer p; stderr_buffer := stderr_buffer p; io := io p |}.

Definition clear_buffers (p : Process) : Process :=
  {| pid := pid p; returncode := returncode p; stdout_buffer := EmptyString;
     stderr_buffer := EmptyString; io := io p ++ [ClearStdout; ClearStderr] |}.

(** ** [_BashSession] *)

Module Session.

Import Str.

(** The instance attributes.  [_process] is assigned by [start] only. *)
Record BashSession : Type := {
  _started : bool;
  _timed_out : bool;
  _process : option Process
}.

(** The class attributes; no method assigns any of them on an instance, so
    [self._sentinel] is this constant for every session.  [_timeout] and
    [_output_delay] are kept as Python prints them: the methods only format
    [_timeout] into messages, and the number of polls that fit before the
    deadline is given by [polls] below. *)
Definition command : string := "/bin/bash".
Definition _output_delay : string := "0.2".
Definition _timeout : string := "30.0".
Definition _sentinel : string := "<<exit>>".

(** [self._sentinel], the attribute as an instance sees it. *)
Definition sentinel_of (self : BashSession) : string := _sentinel.

(** [__init__]. *)
Definition init : BashSession :=
  {| _started := false; _timed_out := false; _process := None |}.

Definition with_process (self : BashSession) (p : Process) : BashSession :=
  {| _started := _started self; _timed_out := _timed_out self; _process := Some p |}.

(** [start]; [spawned] is the process [create_subprocess_shell] returns. *)
Definition start (self : BashSession) (spawned : Process) : BashSession :=
  if _started self then self
  else {| _started := true; _timed_out := _timed_out self; _process := Some spawned |}.

(** [stop]. *)
Definition stop (self : BashSession) : BashSession * outcome unit :=
  if negb (_started self) then (self, Raised (ToolError "Session has not started."))
  else
    match _process self with
    | None => (self, Raised (AttributeError "_process"))
    | Some p =>
        match returncode p with
        | Some _ => (self, Returned tt)
        | None => (with_process self (log [Terminate] p), Returned tt)
        end
    end.

(** What the operating system contributes to one [run]:
    - [polls]: one entry per [asyncio.sleep(_output_delay)] that completes
      before the deadline of [asyncio.timeout(_timeout)], holding what the
      shell printed on stdout and stderr during that sleep; the deadline
      falls in the sleep after the last entry;
    - [late]: what the shell prints during the sleep the deadline
      interrupts, if the loop gets that far: it reaches the buffers before
      the timeout and the loop never reads it;
    - [tmp_stdout], [tmp_stderr]: the name of the temporary file when
      creating and writing it succeeds, [None] when it raises. *)
Record run_env : Type := {
  polls : list (string * string);
  late : string * string;
  tmp_stdout : option string;
  tmp_stderr : option string
}.

(** How the [while True] loop is left. [locals] are the variables [output]
    and [error], unbound until the first iteration has assigned them. *)
Inductive loop_exit : Type :=
  | Broke (output error : string)
  | DeadlineHit (locals : option (string * string))
  | DecodeFailed.

(** The loop of lines 77-83: after each sleep, decode stdout (line 79), then
    stderr (line 80), then look for the sentinel; [index_of] is both
    [_sentinel in output] (it is [Some _]) and [output.index(_sentinel)].
    A buffer that does not decode ends the loop with [UnicodeDecodeError]. *)
Fixpoint poll (chunks : list (string * string)) (locals : option (string * string))
    (p : Process) : Process * loop_exit :=
  match chunks with
  | [] => (p, DeadlineHit locals)
  | chunk :: rest =>
      let p := feed chunk p in
      match decode (stdout_buffer p) with
      | None => (log [ReadStdout] p, DecodeFailed)
      | Some output =>
          let p := log [ReadStdout; ReadStderr] p in
          match decode (stderr_buffer p) with
          | None => (p, DecodeFailed)
          | Some error =>
              match index_of _sentinel output with
              | Some i => (p, Broke (take_chars i output) error)
              | None => poll rest (Some (output, error)) p
              end
          end
      end
  end.

(** [s[:10000] + "<response clipped>" if len(s) > 10000 else s]. *)
Definition clipped (s : string) : string :=
  if (10000 <? char_length s)%nat then take_chars 10000 s +:+ "<response clipped>" else s.

Definition timed_out_prefix : string :=
  "timed out: bash has not returned in " +:+ _timeout +:+ " seconds and must be restarted.".

(** The message of lines 102-108. *)
Definition saved_message (stdout_file stderr_file stdout_truncated stderr_truncated : string)
    : string :=
  timed_out_prefix +:+ nl +:+
  "Full logs saved to:" +:+ nl +:+
  "  STDOUT: " +:+ stdout_file +:+ nl +:+
  "  STDERR: " +:+ stderr_file +:+ nl +:+
  "Truncated output:" +:+ nl +:+
  "  STDOUT: " +:+ stdout_truncated +:+ nl +:+
  "  STDERR: " +:+ stderr_truncated.

(** The message of line 112. *)
Definition preview_message (stdout_truncated stderr_truncated : string) : string :=
  timed_out_prefix +:+ " Full logs are saved to " +:+ nl +:+
  " STDOUT: " +:+ stdout_truncated +:+ nl +:+
  " STDERR: " +:+ stderr_truncated.

(** The handler of lines 86-113 once [output] and [error] are bound: the
    files it writes (name, content) and what it raises.  The [raise] of
    line 101 stands inside the [try] whose [except Exception] is line 110. *)
Definition on_timeout (env : run_env) (output error : string)
    : list (string * string) * outcome ToolResult :=
  let stdout_truncated := clipped output in
  let stderr_truncated := clipped error in
  let '(files, body) :=
    match tmp_stdout env with
    | None => ([], Raised OSError)
    | Some stdout_file =>
        match tmp_stderr env with
        | None => ([(stdout_file, output)], Raised OSError)
        | Some stderr_file =>
            ([(stdout_file, output); (stderr_file, error)],
             Raised (ToolError (saved_message stdout_file stderr_file
                                  stdout_truncated stderr_truncated)))
        end
    end in
  (files,
   try_except_Exception body
     (Raised (ToolError (preview_message stdout_truncated stderr_truncated)))).

(** [if s.endswith("\n"): s = s[:-1]]. *)
Definition chomp (s : string) : string :=
  if endswith s nl then take (String.length s - 1) s else s.

(** What [run] writes to the shell's stdin. *)
Definition framed (cmd : string) : string :=
  cmd +:+ "; echo '" +:+ _sentinel +:+ "'" +:+ nl.

(** [run]: the session afterwards, the files written, and the outcome.
    The three [assert]s of lines 68-70 hold for a process spawned with
    three pipes.  [except TimeoutError] is the only handler around the loop:
    a [UnicodeDecodeError] leaves [run] as it is, before line 85 and before
    lines 121-122. *)
Definition run (self : BashSession) (cmd : string) (env : run_env)
    : BashSession * list (string * string) * outcome ToolResult :=
  if negb (_started self) then (self, [], Raised (ToolError "Session has not started."))
  else
    match _process self with
    | None => (self, [], Raised (AttributeError "_process"))
    | Some p =>
        match returncode p with
        | Some rc =>
            (self, [],
             Returned (mkToolResult None
                         (Some ("bash has exited with returncode " +:+ of_int rc))
                         (Some "tool must be restarted")))
        | None =>
            if _timed_out self then (self, [], Raised (ToolError timed_out_prefix))
            else
              let p := log [StdinWrite (framed cmd); StdinDrain] p in
              match poll (polls env) None p with
              | (p, DecodeFailed) => (with_process self p, [], Raised UnicodeDecodeError)
              | (p, DeadlineHit locals) =>
                  let p := feed (late env) p in
                  let self :=
                    {| _started := _started self; _timed_out := true;
                       _process := Some p |} in
                  match locals with
                  | None => (self, [], Raised (UnboundLocalError "output"))
                  | Some (output, error) =>
                      let '(files, r) := on_timeout env output error in
                      (self, files, r)
                  end
              | (p, Broke output error) =>
                  (with_process self (clear_buffers p), [],
                   Returned (CLIResult (chomp output) (chomp error)))
              end
        end
    end.

End Session.

(** ** [BashSessionManager] *)

Module Manager.

Import Session.

(** [_session] is the one attribute of the class.  The other two fields are
    what the operating system keeps: how many shells have been spawned so far
    (the next process identifier), and the sessions the manager no longer
    refers to, as it left them, oldest first. *)
Record BashSessionManager : Type := {
  _session : option BashSession;
  spawned : nat;
  dropped : list BashSession
}.

(** [__init__]. *)
Definition init : BashSessionManager :=
  {| _session := None; spawned := 0; dropped := [] |}.

Definition with_session (self : BashSessionManager) (s : BashSession) : BashSessionManager :=
  {| _session := Some s; spawned := spawned self; dropped := dropped self |}.

(** [_BashSession()] followed by [start()], on the [n]-th shell. *)
Definition fresh_session (n : nat) : BashSession := Session.start Session.init (spawn n).

(** [self._session = _BashSession(); await self._session.start()] when
    [create_subprocess_shell] returns. *)
Definition start_new (self : BashSessionManager) : BashSessionManager :=
  {| _session := Some (fresh_session (spawned self));
     spawned := S (spawned self);
     dropped := dropped self ++ match _session self with Some s => [s] | None => [] end |}.

(** The same two statements when [create_subprocess_shell] raises: the
    assignment has been made, [start] has set neither [_process] nor
    [_started], and the exception leaves [execute]. *)
Definition start_new_raising (self : BashSessionManager) : BashSessionManager :=
  {| _session := Some Session.init;
     spawned := spawned self;
     dropped := dropped self ++ match _session self with Some s => [s] | None => [] end |}.

Definition restarted : ToolResult := mkToolResult None None (Some "tool has been restarted.").

(** [execute].  A session object is always truthy, so [if self._session]
    tests for [None].  [spawn_raises] is what [create_subprocess_shell] does
    if this call reaches it: [None] when it returns a process, [Some e] when
    it raises [e]. *)
Definition execute_spawning (spawn_raises : option exn) (self : BashSessionManager)
    (cmd : option string) (restart : bool) (env : run_env)
    : BashSessionManager * list (string * string) * outcome ToolResult :=
  let start_session (self : BashSessionManager) : BashSessionManager * outcome unit :=
    match spawn_raises with
    | None => (start_new self, Returned tt)
    | Some e => (start_new_raising self, Raised e)
    end in
  if restart then
    let '(self, stopped) :=
      match _session self with
      | Some s => let '(s', stopped) := Session.stop s in (with_session self s', stopped)
      | None => (self, Returned tt)
      end in
    match stopped with
    | Raised e => (self, [], Raised e)
    | Returned _ =>
        let '(self, started) := start_session self in
        (self, [], _ <- started ;; Returned restarted)
    end
  else
    let '(self, started) :=
      match _session self with
      | Some _ => (self, Returned tt)
      | None => start_session self
      end in
    match started with
    | Raised e => (self, [], Raised e)
    | Returned _ =>
        match cmd, _session self with
        | Some c, Some s =>
            let '(s', files, r) := Session.run s c env in
            (with_session self s', files, r)
        | Some c, None => (self, [], Raised (AttributeError "run"))
        | None, _ => (self, [], Raised (ToolError "no command provided."))
        end
    end.

(** [execute] when the shell it may need is spawned. *)
Definition execute (self : BashSessionManager) (cmd : option string) (restart : bool)
    (env : run_env) : BashSessionManager * list (string * string) * outcome ToolResult :=
  execute_spawning None self cmd restart env.

End Manager.

(** ** [GradingRunner] *)

Module Grading.

Import Str.

(** [key="value"] with its leading blank. *)
Definition attr (key value : string) : string :=
  " " +:+ key +:+ "=" +:+ dq +:+ value +:+ dq.

(** The optional [<failure>] element of line 54; [if failure_message] is
    false for [None] and for the empty string. *)
Definition failure_element (failure_message : option string) : string :=
  match failure_message with
  | None => EmptyString
  | Some EmptyString => EmptyString
  | Some m => "<failure type='TestFailure'>" +:+ nl +:+ m +:+ nl +:+ "</failure>"
  end.

(** [_format_junit_xml], line by line. *)
Definition _format_junit_xml (test_name : string) (failure_message : option string)
    (stdout stderr : string) : string :=
  "<?xml" +:+ attr "version" "1.0" +:+ attr "encoding" "UTF-8" +:+ "?>" +:+ nl +:+
  "<testsuites>" +:+ nl +:+
  "  <testsuite" +:+ attr "name" test_name +:+ attr "tests" "1" +:+ attr "failures" "1"
    +:+ attr "errors" "0" +:+ attr "skipped" "0" +:+ ">" +:+ nl +:+
  "    <testcase" +:+ attr "classname" test_name +:+ attr "name" ("test" +:+ test_name)
    +:+ attr "time" "0.0" +:+ ">" +:+ nl +:+
  "      " +:+ failure_element failure_message +:+ nl +:+
  "      <system-out>" +:+ nl +:+ stdout +:+ nl +:+ "</system-out>" +:+ nl +:+
  "      <system-err>" +:+ nl +:+ stderr +:+ nl +:+ "</system-err>" +:+ nl +:+
  "    </testcase>" +:+ nl +:+
  "  </testsuite>" +:+ nl +:+
  "</testsuites>".

(** The literal of lines 262-272. *)
Definition validation_passed_xml : string :=
  let case (name : string) :=
    "    <testcase" +:+ attr "classname" "PatchValidation" +:+ attr "name" name
      +:+ attr "time" "0.0" +:+ "/>" +:+ nl in
  "<?xml" +:+ attr "version" "1.0" +:+ attr "encoding" "UTF-8" +:+ "?>" +:+ nl +:+
  "<testsuites>" +:+ nl +:+
  "  <testsuite" +:+ attr "name" "PatchValidation" +:+ attr "tests" "6"
    +:+ attr "failures" "0" +:+ attr "errors" "0" +:+ attr "skipped" "0" +:+ ">" +:+ nl +:+
  case "testBaselineCompiles" +:+
  case "testTestPatchApplies" +:+
  case "testTestPatchFailsTests" +:+
  case "testGoldenPatchApplies" +:+
  case "testGoldenPatchCompiles" +:+
  case "testGoldenPatchPassesTests" +:+
  "  </testsuite>" +:+ nl +:+
  "</testsuites>".

(** The dictionary [{"junit": xml}] both workflows return. *)
Record report : Type := { junit : string }.

(** A finished [subprocess.run(..., capture_output=True, text=True)]. *)
Record completed : Type := { exit_code : Z; stdout : string; stderr : string }.

(** A [subprocess.run(..., timeout=1500, check=True)]: it finishes, or the
    timeout expires. *)
Inductive build_result : Type :=
  | Finished (c : completed)
  | Expired.

Inductive patch_file : Type := TestPatch | GoldenPatch.

(** The external commands run in the workspace, in the order they are run. *)
Inductive invocation : Type :=
  | CopyRepo                      (* [cp -r original_repo_path grade_working_dir] *)
  | LakeBuild                     (* [_get_build_command] *)
  | LakeTest                      (* [_get_test_command] *)
  | GitApply (patch : patch_file) (* [git apply] fed the patch file *)
  | GitResetHard.                 (* [git reset --hard] *)

Definition _get_build_command : list string := ["lake"; "build"].
Definition _get_test_command : list string := ["lake"; "test"].

(** The argument list under which the build and the tests are run. *)
Definition as_ubuntu (cmd : list string) : list string :=
  ["sudo"; "-u"; "ubuntu"; "bash"; "-lc"; join " " cmd].

(** [run_tests]. *)
Definition run_tests (result : completed) : bool * report :=
  if negb (exit_code result =? 0)%Z then
    (false, {| junit := _format_junit_xml "Tests" (Some "Tests failed")
                          (stdout result) (stderr result) |})
  else
    (true, {| junit := _format_junit_xml "Tests" None (stdout result) (stderr result) |}).

(** What the external commands of [run_grading] do, in call order.  A [bool]
    tells whether a command run with [check=True] exits with zero;
    [g_build_output] is the lines of the build as the two reader threads
    appended them. *)
Record grading_env : Type := {
  g_copy : bool;
  g_apply_test : bool;
  g_build_code : Z;
  g_build_output : list string;
  g_tests : completed
}.

(** [run_grading]: the commands invoked and the outcome.  [read_test] is what
    [open(self.test_patch_path)] and [f.read()] of lines 96-97 do: [None]
    when the patch is read, [Some e] when [e] is raised (a missing file
    raises [FileNotFoundError]), in which case [git apply] is not run. *)
Definition run_grading_reading (read_test : option exn) (env : grading_env)
    : list invocation * outcome (bool * report) :=
  if negb (g_copy env) then ([CopyRepo], Raised CalledProcessError)
  else
    match read_test with
    | Some e => ([CopyRepo], Raised e)
    | None =>
        if negb (g_apply_test env) then
          ([CopyRepo; GitApply TestPatch], Raised CalledProcessError)
        else if negb (g_build_code env =? 0)%Z then
          ([CopyRepo; GitApply TestPatch; LakeBuild],
           Returned (false,
                     {| junit := _format_junit_xml "AgentPatchCompiles"
                                   (Some "Agent patch compilation failed")
                                   (concat (g_build_output env)) EmptyString |}))
        else
          ([CopyRepo; GitApply TestPatch; LakeBuild; LakeTest],
           Returned (run_tests (g_tests env)))
    end.

(** [run_grading] when the test patch can be read. *)
Definition run_grading (env : grading_env) : list invocation * outcome (bool * report) :=
  run_grading_reading None env.

(** What the external commands of [validate_patches] do, in call order. *)
Record validate_env : Type := {
  v_copy : bool;
  v_baseline_build : build_result;
  v_apply_test : bool;
  v_tests : completed;
  v_reset : bool;
  v_apply_golden : bool;
  v_apply_test_again : bool;
  v_golden_build : build_result;
  v_golden_tests : completed
}.

(** What [open(path)] and [f.read()] do at the three places where
    [validate_patches] reads a patch file (lines 179, 209 and 217): [None]
    when the patch is read, [Some e] when [e] is raised. *)
Record patch_reads : Type := {
  read_test : option exn;
  read_golden : option exn;
  read_test_again : option exn
}.

Definition readable : patch_reads :=
  {| read_test := None; read_golden := None; read_test_again := None |}.

Definition stage_failed (name message : string) (c : completed) : outcome (bool * report) :=
  Returned (false, {| junit := _format_junit_xml name (Some message) (stdout c) (stderr c) |}).

(** [validate_patches]: the commands invoked and the outcome. *)
Definition validate_patches_reading (files : patch_reads) (env : validate_env)
    : list invocation * outcome (bool * report) :=
  if negb (v_copy env) then ([CopyRepo], Raised CalledProcessError) else
  let done := [CopyRepo; LakeBuild] in
  match v_baseline_build env with
  | Expired => (done, Raised TimeoutExpired)
  | Finished b =>
  if negb (exit_code b =? 0)%Z then
    (done, stage_failed "BaselineCompiles" "Baseline compilation failed" b) else
  match read_test files with
  | Some e => (done, Raised e)
  | None =>
  let done := (done ++ [GitApply TestPatch])%list in
  if negb (v_apply_test env) then (done, Raised CalledProcessError) else
  let done := (done ++ [LakeTest])%list in
  let result := v_tests env in
  if (exit_code result =? 0)%Z then
    (done, stage_failed "TestPatchFailsTests" "Test patch did not cause tests to fail" result)
  else
  let done := (done ++ [GitResetHard])%list in
  if negb (v_reset env) then (done, Raised CalledProcessError) else
  match read_golden files with
  | Some e => (done, Raised e)
  | None =>
  let done := (done ++ [GitApply GoldenPatch])%list in
  if negb (v_apply_golden env) then (done, Raised CalledProcessError) else
  match read_test_again files with
  | Some e => (done, Raised e)
  | None =>
  let done := (done ++ [GitApply TestPatch])%list in
  if negb (v_apply_test_again env) then (done, Raised CalledProcessError) else
  let done := (done ++ [LakeBuild])%list in
  match v_golden_build env with
  | Expired => (done, Raised TimeoutExpired)
  | Finished g =>
  if negb (exit_code g =? 0)%Z then
    (done, stage_failed "GoldenPatchCompiles" "Golden patch compilation failed" g) else
  let done := (done ++ [LakeTest])%list in
  let result := v_golden_tests env in
  if negb (exit_code result =? 0)%Z then
    (done, stage_failed "GoldenPatchPassesTests"
             ("Golden patch did not fix tests (returncode=" +:+ of_int (exit_code result) +:+ ")")
             result)
  else (done, Returned (true, {| junit := validation_passed_xml |}))
  end
  end
  end
  end
  end.

(** [validate_patches] when both patch files can be read. *)
Definition validate_patches (env : validate_env)
    : list invocation * outcome (bool * report) :=
  validate_patches_reading readable env.

End Grading.

(** ** [Grade] *)

Module GradeSpec.

(** A [dict[str, float]]: its items in insertion order.  The keys of a
    dictionary are distinct. *)
Definition dict : Type := list (string * float).

Definition is_dict (d : dict) : Prop := List.NoDup (map fst d).

(** The dataclass; [metadata] is never read by [score]. *)
Record Grade : Type := {
  subscores : dict;
  weights : dict;
  metadata : option (gmap string string)
}.

(** [d.keys()] and [d.values()], in insertion order. *)
Definition keys (d : dict) : list string := map fst d.
Definition values (d : dict) : list float := map snd d.

(** [d.keys() == e.keys()]: as many keys, and every key of [d] is one of
    [e]. *)
Definition same_keys (d e : dict) : bool :=
  (length d =? length e)%nat &&
  forallb (fun k => existsb (String.eqb k) (keys e)) (keys d).

(** The interpreter: [sum] adds floats one by one up to CPython 3.11 and
    with a compensation term from CPython 3.12 on. *)
Inductive cpython : Type := before_3_12 | from_3_12.

(** One step of the compensated sum: the running total and the
    compensation, before and after adding [x]. *)
Definition compensated (acc : float * float) (x : float) : float * float :=
  let '(total, c) := acc in
  let t := (total + x)%float in
  (t, if (abs x <=? abs total)%float
      then (c + ((total - t) + x))%float
      else (c + ((x - t) + total))%float).

(** [sum(l)] for a list of floats: the start value is the integer [0], to
    which the first item is added as [0.0 + x]; the compensation is added at
    the end unless it is zero or not finite. *)
Definition py_sum (v : cpython) (l : list float) : float :=
  match l with
  | [] => 0%float
  | x :: rest =>
      let first := (0 + x)%float in
      match v with
      | before_3_12 => fold_left PrimFloat.add rest first
      | from_3_12 =>
          let '(total, c) := fold_left compensated rest (first, 0%float) in
          if negb (c =? 0)%float && is_finite c then (total + c)%float else total
      end
  end.

(** [min(l)] and [max(l)]: the first item is kept until a later one is
    smaller (greater); they raise [ValueError] on an empty sequence. *)
Definition py_min (l : list float) : outcome float :=
  match l with
  | [] => Raised ValueError
  | x :: rest => Returned (fold_left (fun m y => if (y <? m)%float then y else m) rest x)
  end.

Definition py_max (l : list float) : outcome float :=
  match l with
  | [] => Raised ValueError
  | x :: rest => Returned (fold_left (fun m y => if (m <? y)%float then y else m) rest x)
  end.

(** [np.isclose(a, b)] with numpy's default tolerances:
    [|a - b| <= atol + rtol * |b|] where both are finite, and [a == b]
    otherwise. *)
Definition rtol : float := 1e-05%float.
Definition atol : float := 1e-08%float.
Definition isclose (a b : float) : bool :=
  if is_finite a && is_finite b
  then (abs (a - b) <=? atol + rtol * abs b)%float
  else (a =? b)%float.

(** [np.clip(x, lo, hi)]: the greater of [x] and [lo], then the smaller of
    that and [hi]; a NaN is returned as it is. *)
Definition clip (x lo hi : float) : float :=
  let y := if is_nan x then x else if (lo <? x)%float then x else lo in
  if is_nan y then y else if (y <? hi)%float then y else hi.

(** [d[key]]. *)
Definition getitem (d : dict) (key : string) : outcome float :=
  match find (fun item => String.eqb (fst item) key) d with
  | Some item => Returned (snd item)
  | None => Raised (KeyError key)
  end.

(** [[self.subscores[key] * self.weights[key] for key in self.subscores.keys()]]. *)
Fixpoint products (s w : dict) (ks : list string) : outcome (list float) :=
  match ks with
  | [] => Returned []
  | key :: rest =>
      a <- getitem s key ;;
      b <- getitem w key ;;
      l <- products s w rest ;;
      Returned ((a * b)%float :: l)
  end.

(** The property [score]: the four [assert]s in order, then the clipped
    weighted sum. *)
Definition score (v : cpython) (self : Grade) : outcome float :=
  _ <- py_assert (same_keys (subscores self) (weights self)) ;;
  _ <- py_assert (isclose (py_sum v (values (weights self))) 1) ;;
  lo <- py_min (values (subscores self)) ;;
  _ <- py_assert (0 <=? lo)%float ;;
  hi <- py_max (values (subscores self)) ;;
  _ <- py_assert (hi <=? 1)%float ;;
  l <- products (subscores self) (weights self) (keys (subscores self)) ;;
  Returned (clip (py_sum v l) 0 1).

End GradeSpec.

(** * Properties *)

(** ** Facts about strings *)

Module StrFacts.

Import Str.

Lemma append_cons (c : ascii) (s t : string) : String c s +:+ t = String c (s +:+ t).
Proof. reflexivity. Qed.

Lemma append_nil_l (s : string) : EmptyString +:+ s = s.
Proof. reflexivity. Qed.

Lemma append_nil_r (s : string) : s +:+ EmptyString = s.
Proof.
  induction s as [|c s IH]; [reflexivity | now rewrite append_cons, IH].
Qed.

Lemma append_assoc (a b c : string) : (a +:+ b) +:+ c = a +:+ (b +:+ c).
Proof.
  induction a as [|x a IH]; [reflexivity | now rewrite !append_cons, IH].
Qed.

Lemma length_append (a b : string) :
  String.length (a +:+ b) = (String.length a + String.length b)%nat.
Proof.
  induction a as [|x a IH]; [reflexivity | rewrite append_cons; simpl; now rewrite IH].
Qed.

Lemma length_substring (s : string) :
  forall n m, String.length (substring n m s) = Nat.min m (String.length s - n).
Proof.
  induction s as [|c s IH]; intros [|n] [|m]; simpl; try reflexivity.
  - now rewrite IH, Nat.sub_0_r.
  - now rewrite IH.
  - now rewrite IH.
Qed.

Lemma take_all (s : string) : take (String.length s) s = s.
Proof. unfold take. induction s as [|c s IH]; simpl; [reflexivity | now rewrite IH]. Qed.

Lemma drop_0 (s : string) : drop 0 s = s.
Proof. unfold drop. rewrite Nat.sub_0_r. apply take_all. Qed.

(** A string is the piece before [n], then the piece from [n] on. *)
Lemma take_drop (s : string) : forall n, take n s +:+ drop n s = s.
Proof.
  induction s as [|c s IH]; intros [|n]; try reflexivity.
  - change (take 0 (String c s)) with EmptyString. apply drop_0.
  - change (take (S n) (String c s)) with (String c (take n s)).
    change (drop (S n) (String c s)) with (drop n s).
    now rewrite append_cons, IH.
Qed.

(** [substring n m s] is the first [m] characters of [s[n:]]. *)
Lemma substring_drop (s : string) :
  forall n m, substring n m s = take m (drop n s).
Proof.
  induction s as [|c s IH]; intros [|n] m.
  - now destruct m.
  - now destruct m.
  - now rewrite drop_0.
  - change (drop (S n) (String c s)) with (drop n s). simpl. apply IH.
Qed.

Lemma drop_drop (s : string) : forall i k, drop (i + k) s = drop k (drop i s).
Proof.
  induction s as [|c s IH]; intros [|i] k.
  - now destruct k.
  - now destruct k.
  - now rewrite drop_0.
  - change (drop (S i) (String c s)) with (drop i s).
    change (drop (S i + k) (String c s)) with (drop (i + k) s). apply IH.
Qed.

Lemma take_append (a b : string) : take (String.length a) (a +:+ b) = a.
Proof.
  unfold take. induction a as [|x a IH].
  - now destruct b.
  - rewrite append_cons. simpl. now rewrite IH.
Qed.

Lemma drop_append (a b : string) : drop (String.length a) (a +:+ b) = b.
Proof.
  pose proof (take_drop (a +:+ b) (String.length a)) as H.
  rewrite take_append in H. now apply String.app_inj in H.
Qed.

(** Where [index] finds [pat], the string splits around that occurrence, and
    no occurrence starts earlier. *)
Lemma index_split (pat s : string) (i : nat) :
  String.index 0 pat s = Some i ->
  s = take i s +:+ pat +:+ drop (i + String.length pat) s /\
  forall q, (q < String.length (take i s))%nat ->
            substring q (String.length pat) s <> pat.
Proof.
  intros H.
  pose proof (index_correct1 _ _ _ _ H) as Hat.
  pose proof (index_correct2 _ _ _ _ H) as Hbefore.
  split.
  - rewrite substring_drop in Hat.
    rewrite <- (take_drop s i) at 1. f_equal.
    rewrite <- (take_drop (drop i s) (String.length pat)) at 1.
    rewrite Hat. f_equal. symmetry. apply drop_drop.
  - intros q Hq. unfold take in Hq. rewrite length_substring in Hq.
    apply Hbefore; lia.
Qed.

Lemma endswith_append (x suffix : string) : endswith (x +:+ suffix) suffix = true.
Proof.
  unfold endswith. rewrite length_append.
  apply andb_true_intro. split.
  - apply Nat.leb_le. lia.
  - replace (String.length x + String.length suffix - String.length suffix)%nat
      with (String.length x) by lia.
    rewrite drop_append. apply String.eqb_refl.
Qed.

Lemma endswith_split (s suffix : string) :
  endswith s suffix = true ->
  s = take (String.length s - String.length suffix) s +:+ suffix.
Proof.
  unfold endswith. intros H. apply andb_prop in H as [_ H].
  apply String.eqb_eq in H.
  rewrite <- (take_drop s (String.length s - String.length suffix)) at 1.
  now rewrite H.
Qed.

(** *** Characters *)



(** Cutting before byte [i] is cutting after the characters that precede it,
    provided byte [i] starts a character. *)
Lemma take_chars_boundary (s : string) :
  forall i,
    (forall c, String.get i s = Some c -> continuation c = false) ->
    take_chars (char_length (take i s)) s = take i s.
Proof.
  induction s as [|c s IH]; intros i Hi.
  - now destruct i.
  - destruct i as [|i].
    + change (take 0 (String c s)) with EmptyString.
      cbn [char_length take_chars]. now rewrite (Hi c eq_refl).
    + change (take (S i) (String c s)) with (String c (take i s)).
      cbn [char_length take_chars].
      destruct (continuation c); cbn [Nat.add]; f_equal; apply IH; exact Hi.
Qed.

(** The byte at which [index] finds [pat] is the first byte of [pat]. *)
Lemma index_first_byte (pat s : string) (i : nat) (c : ascii) :
  String.index 0 pat s = Some i ->
  String.get 0 pat = Some c ->
  String.get i s = Some c.
Proof.
  intros H Hc.
  pose proof (index_correct1 _ _ _ _ H) as Hat.
  destruct pat as [|x pat]; [discriminate|].
  pose proof (substring_correct1 s i (String.length (String x pat)) 0
                ltac:(simpl; lia)) as Hget.
  rewrite Hat in Hget. cbn [Nat.add] in Hget. congruence.
Qed.

(** For a pattern that starts with a character, [s[: s.index(pat)]] is the
    bytes before the first occurrence. *)
Lemma index_of_cut (pat s : string) (n : nat) (c : ascii) :
  String.get 0 pat = Some c ->
  continuation c = false ->
  index_of pat s = Some n ->
  exists i, String.index 0 pat s = Some i /\ take_chars n s = take i s.
Proof.
  unfold index_of. intros Hc Hlead H.
  destruct (String.index 0 pat s) as [i|] eqn:Hi; [|discriminate].
  injection H as <-. exists i. split; [reflexivity|].
  apply take_chars_boundary. intros c' Hc'.
  rewrite (index_first_byte _ _ _ _ Hi Hc) in Hc'. congruence.
Qed.

End StrFacts.

(** ** The session: one [run] *)

Module SessionFacts.

Import Str StrFacts Session.

(** What the stdout buffer holds at poll number [k] (from 0) of a [run] that
    found process [p] and is fed [chunks]: what it held before, and all that
    arrived since. *)
Definition seen_stdout (p : Process) (chunks : list (string * string)) (k : nat) : string :=
  stdout_buffer p +:+ Str.concat (map fst (firstn (S k) chunks)).

Definition seen_stderr (p : Process) (chunks : list (string * string)) (k : nat) : string :=
  stderr_buffer p +:+ Str.concat (map snd (firstn (S k) chunks)).

(** The part of [s] before the first occurrence of [pat]. *)
Definition before_first (pat s : string) : string :=
  match String.index 0 pat s with
  | Some i => take i s
  | None => s
  end.

(** [r] is [s] with at most one trailing newline removed: one is removed when
    [s] ends with one, and nothing otherwise. *)
Definition strip_one_newline (s r : string) : Prop :=
  s = r +:+ nl \/ (r = s /\ forall x, s <> x +:+ nl).

(** The process as poll number [k] leaves it. *)
Definition polled (p : Process) (chunks : list (string * string)) (k : nat) : Process :=
  {| pid := pid p; returncode := returncode p;
     stdout_buffer := seen_stdout p chunks k;
     stderr_buffer := seen_stderr p chunks k;
     io := io p ++ List.concat (repeat [ReadStdout; ReadStderr] (S k)) |}.

Lemma seen_stdout_0 p chunk rest :
  seen_stdout p (chunk :: rest) 0 = stdout_buffer p +:+ fst chunk.
Proof. unfold seen_stdout. simpl. now rewrite append_nil_r. Qed.

Lemma seen_stderr_0 p chunk rest :
  seen_stderr p (chunk :: rest) 0 = stderr_buffer p +:+ snd chunk.
Proof. unfold seen_stderr. simpl. now rewrite append_nil_r. Qed.

Lemma seen_stdout_S p chunk rest ev k :
  seen_stdout (log ev (feed chunk p)) rest k = seen_stdout p (chunk :: rest) (S k).
Proof.
  unfold seen_stdout. cbn [log feed stdout_buffer firstn map Str.concat fold_right].
  apply append_assoc.
Qed.

Lemma seen_stderr_S p chunk rest ev k :
  seen_stderr (log ev (feed chunk p)) rest k = seen_stderr p (chunk :: rest) (S k).
Proof.
  unfold seen_stderr. cbn [log feed stderr_buffer firstn map Str.concat fold_right].
  apply append_assoc.
Qed.

Lemma polled_0 p chunk rest :
  polled p (chunk :: rest) 0 = log [ReadStdout; ReadStderr] (feed chunk p).
Proof.
  unfold polled. rewrite seen_stdout_0, seen_stderr_0. reflexivity.
Qed.

Lemma polled_S p chunk rest k :
  polled (log [ReadStdout; ReadStderr] (feed chunk p)) rest k = polled p (chunk :: rest) (S k).
Proof.
  unfold polled. rewrite seen_stdout_S, seen_stderr_S.
  cbn [log feed pid returncode io]. f_equal.
  rewrite <- app_assoc. reflexivity.
Qed.

Lemma contains_index pat s :
  contains pat s = true -> exists i, String.index 0 pat s = Some i.
Proof. unfold contains. destruct (String.index 0 pat s); [eauto | discriminate]. Qed.

Lemma not_contains_index pat s :
  contains pat s = false -> String.index 0 pat s = None.
Proof. unfold contains. destruct (String.index 0 pat s); [discriminate | reflexivity]. Qed.

(** Both buffers decode at poll [k]. *)
Definition decodes (p : Process) (chunks : list (string * string)) (k : nat) : Prop :=
  utf8_valid (seen_stdout p chunks k) = true /\
  utf8_valid (seen_stderr p chunks k) = true.

(** The sentinel starts with [<], so [output[: output.index(_sentinel)]] is
    the bytes before its first occurrence. *)
Lemma cut_before_sentinel (s : string) :
  contains _sentinel s = true ->
  exists n, index_of _sentinel s = Some n /\ take_chars n s = before_first _sentinel s.
Proof.
  intros H. apply contains_index in H as [i Hi].
  exists (char_length (take i s)). unfold index_of, before_first. rewrite Hi.
  split; [reflexivity|].
  destruct (index_of_cut _sentinel s (char_length (take i s)) "<"%char
              eq_refl eq_refl) as (i' & Hi' & Hcut).
  - unfold index_of. now rewrite Hi.
  - rewrite Hcut. congruence.
Qed.

Lemma no_sentinel (s : string) :
  contains _sentinel s = false -> index_of _sentinel s = None.
Proof. intros H. unfold index_of. now rewrite (not_contains_index _ _ H). Qed.

(** The loop breaks at the first poll that sees the sentinel, the buffers
    decoding at every poll up to that one. *)
Lemma poll_breaks chunks :
  forall locals p k,
    (k < length chunks)%nat ->
    (forall j, (j <= k)%nat -> decodes p chunks j) ->
    (forall j, (j < k)%nat -> contains _sentinel (seen_stdout p chunks j) = false) ->
    contains _sentinel (seen_stdout p chunks k) = true ->
    poll chunks locals p =
      (polled p chunks k,
       Broke (before_first _sentinel (seen_stdout p chunks k)) (seen_stderr p chunks k)).
Proof.
  induction chunks as [|chunk rest IH]; intros locals p k Hk Hdec Hearlier Hhit.
  - simpl in Hk. lia.
  - cbn [poll]. cbv zeta.
    destruct (Hdec 0%nat ltac:(lia)) as [Ho He].
    rewrite seen_stdout_0 in Ho. rewrite seen_stderr_0 in He.
    cbn [log feed stdout_buffer stderr_buffer]. unfold decode. rewrite Ho, He.
    destruct k as [|k].
    + rewrite seen_stdout_0 in Hhit.
      destruct (cut_before_sentinel _ Hhit) as (n & Hn & Hcut). rewrite Hn, Hcut.
      rewrite polled_0, seen_stdout_0, seen_stderr_0. reflexivity.
    + pose proof (Hearlier 0%nat ltac:(lia)) as H0.
      rewrite seen_stdout_0 in H0. rewrite (no_sentinel _ H0).
      rewrite <- polled_S, <- (seen_stdout_S p chunk rest [ReadStdout; ReadStderr]),
        <- (seen_stderr_S p chunk rest [ReadStdout; ReadStderr]).
      apply IH.
      * simpl in Hk. lia.
      * intros j Hj. unfold decodes. rewrite seen_stdout_S, seen_stderr_S.
        apply Hdec. lia.
      * intros j Hj. rewrite seen_stdout_S. apply Hearlier. lia.
      * now rewrite seen_stdout_S.
Qed.

(** The loop runs into the deadline when no poll sees the sentinel; [output]
    and [error] then hold what the last poll read, if there was one. *)
Lemma poll_deadline chunks :
  forall locals p,
    (forall j, (j < length chunks)%nat -> decodes p chunks j) ->
    (forall j, (j < length chunks)%nat ->
               contains _sentinel (seen_stdout p chunks j) = false) ->
    poll chunks locals p =
      match length chunks with
      | O => (p, DeadlineHit locals)
      | S k => (polled p chunks k,
                DeadlineHit (Some (seen_stdout p chunks k, seen_stderr p chunks k)))
      end.
Proof.
  induction chunks as [|chunk rest IH]; intros locals p Hdec Hnone.
  - reflexivity.
  - cbn [poll length]. cbv zeta.
    destruct (Hdec 0%nat ltac:(simpl; lia)) as [Ho He].
    rewrite seen_stdout_0 in Ho. rewrite seen_stderr_0 in He.
    pose proof (Hnone 0%nat ltac:(simpl; lia)) as H0.
    rewrite seen_stdout_0 in H0.
    cbn [log feed stdout_buffer stderr_buffer]. unfold decode.
    rewrite Ho, He, (no_sentinel _ H0).
    rewrite IH.
    + destruct rest as [|c rest'].
      * cbn [length]. rewrite polled_0, seen_stdout_0, seen_stderr_0. reflexivity.
      * cbn [length]. now rewrite polled_S, seen_stdout_S, seen_stderr_S.
    + intros j Hj. unfold decodes. rewrite seen_stdout_S, seen_stderr_S.
      apply Hdec. simpl. lia.
    + intros j Hj. rewrite seen_stdout_S. apply Hnone. simpl. lia.
Qed.

(** The process as poll number [k] leaves it when a buffer does not decode
    there: stdout has been read, and stderr too if stdout decoded. *)
Definition choked (p : Process) (chunks : list (string * string)) (k : nat) : Process :=
  {| pid := pid p; returncode := returncode p;
     stdout_buffer := seen_stdout p chunks k;
     stderr_buffer := seen_stderr p chunks k;
     io := io p ++ List.concat (repeat [ReadStdout; ReadStderr] k) ++
           (if utf8_valid (seen_stdout p chunks k) then [ReadStdout; ReadStderr]
            else [ReadStdout]) |}.

Lemma choked_S p chunk rest k :
  choked (log [ReadStdout; ReadStderr] (feed chunk p)) rest k = choked p (chunk :: rest) (S k).
Proof.
  unfold choked. rewrite seen_stdout_S, seen_stderr_S.
  cbn [log feed pid returncode io]. f_equal.
  rewrite <- app_assoc. reflexivity.
Qed.

(** The loop is left by [UnicodeDecodeError] at the first poll at which a
    buffer does not decode, if no earlier poll saw the sentinel. *)
Lemma poll_chokes chunks :
  forall locals p k,
    (k < length chunks)%nat ->
    (forall j, (j < k)%nat -> decodes p chunks j) ->
    (forall j, (j < k)%nat -> contains _sentinel (seen_stdout p chunks j) = false) ->
    ~ decodes p chunks k ->
    poll chunks locals p = (choked p chunks k, DecodeFailed).
Proof.
  induction chunks as [|chunk rest IH]; intros locals p k Hk Hdec Hearlier Hbad.
  - simpl in Hk. lia.
  - cbn [poll]. cbv zeta. destruct k as [|k].
    + unfold decodes in Hbad. unfold choked.
      rewrite seen_stdout_0, seen_stderr_0 in *.
      cbn [log feed stdout_buffer stderr_buffer]. unfold decode.
      destruct (utf8_valid (stdout_buffer p +:+ fst chunk)) eqn:Ho.
      * destruct (utf8_valid (stderr_buffer p +:+ snd chunk)) eqn:He.
        -- exfalso. apply Hbad. now split.
        -- reflexivity.
      * reflexivity.
    + destruct (Hdec 0%nat ltac:(lia)) as [Ho He].
      rewrite seen_stdout_0 in Ho. rewrite seen_stderr_0 in He.
      pose proof (Hearlier 0%nat ltac:(lia)) as H0.
      rewrite seen_stdout_0 in H0.
      cbn [log feed stdout_buffer stderr_buffer]. unfold decode.
      rewrite Ho, He, (no_sentinel _ H0).
      rewrite <- choked_S. apply IH.
      * simpl in Hk. lia.
      * intros j Hj. unfold decodes. rewrite seen_stdout_S, seen_stderr_S.
        apply Hdec. lia.
      * intros j Hj. rewrite seen_stdout_S. apply Hearlier. lia.
      * unfold decodes. now rewrite seen_stdout_S, seen_stderr_S.
Qed.

Lemma chomp_spec (s : string) : strip_one_newline s (chomp s).
Proof.
  unfold strip_one_newline, chomp.
  destruct (endswith s nl) eqn:E.
  - left. apply endswith_split in E. exact E.
  - right. split; [reflexivity|]. intros x ->.
    rewrite endswith_append in E. discriminate.
Qed.


(** Whatever the storage does, the handler raises the error of line 112: the
    error of line 101 is raised inside the [try] and replaced by it. *)
Lemma on_timeout_raises_preview (env : run_env) (output error : string) :
  snd (on_timeout env output error) =
    Raised (ToolError (preview_message (clipped output) (clipped error))).
Proof.
  unfold on_timeout.
  destruct (tmp_stdout env), (tmp_stderr env); reflexivity.
Qed.

(** When both files can be written they hold the whole of [output] and of
    [error]. *)
Lemma on_timeout_saves (env : run_env) (output error stdout_file stderr_file : string) :
  tmp_stdout env = Some stdout_file ->
  tmp_stderr env = Some stderr_file ->
  fst (on_timeout env output error) = [(stdout_file, output); (stderr_file, error)].
Proof. intros H1 H2. unfold on_timeout. now rewrite H1, H2. Qed.

(** A session whose shell is alive and which has not timed out. *)
Definition ready (self : BashSession) (p : Process) : Prop :=
  _started self = true /\ _timed_out self = false /\
  _process self = Some p /\ returncode p = None.

Definition asked (cmd : string) (p : Process) : Process :=
  log [StdinWrite (framed cmd); StdinDrain] p.

Lemma run_ready (self : BashSession) (cmd : string) (env : run_env) (p : Process) :
  ready self p ->
  run self cmd env =
    match poll (polls env) None (asked cmd p) with
    | (p', DecodeFailed) => (with_process self p', [], Raised UnicodeDecodeError)
    | (p', DeadlineHit locals) =>
        let self' :=
          {| _started := true; _timed_out := true;
             _process := Some (feed (late env) p') |} in
        match locals with
        | None => (self', [], Raised (UnboundLocalError "output"))
        | Some (output, error) =>
            (self', fst (on_timeout env output error), snd (on_timeout env output error))
        end
    | (p', Broke output error) =>
        (with_process self (clear_buffers p'), [],
         Returned (CLIResult (chomp output) (chomp error)))
    end.
Proof.
  intros (Hs & Ht & Hp & Hr). unfold run, asked.
  rewrite Hs, Hp, Hr, Ht. cbn [negb].
  destruct (poll (polls env) None _) as [p' [o e|[[o e]|]|]]; try reflexivity.
  destruct (on_timeout env o e). reflexivity.
Qed.

(** The scenarios of section 8 of the specification. *)
Definition shell : BashSession := start init (spawn 0).

Definition quiet : string * string := (EmptyString, EmptyString).

Definition echo_hi : run_env :=
  {| polls := [quiet; ("hi" +:+ nl +:+ "<<exit>>" +:+ nl, EmptyString)]; late := quiet;
     tmp_stdout := None; tmp_stderr := None |}.

Definition stdout_log : string := "/tmp/bash_stdout_k3x9wq2a.log".
Definition stderr_log : string := "/tmp/bash_stderr_p0q2mz7c.log".

(** A shell that stays silent for the four polls that fit before the
    deadline, and a writable [/tmp]. *)
Definition sleep_100 : run_env :=
  {| polls := [quiet; quiet; quiet; quiet]; late := quiet;
     tmp_stdout := Some stdout_log; tmp_stderr := Some stderr_log |}.

(** A deadline no longer than the first sleep. *)
Definition no_poll : run_env :=
  {| polls := []; late := quiet;
     tmp_stdout := Some stdout_log; tmp_stderr := Some stderr_log |}.

(** What [printf '\377'] prints, then the echo of the sentinel: the byte
    [FF] occurs in no UTF-8 text. *)
Definition byte_ff : string := String (ascii_of_nat 255) EmptyString.

Definition printf_ff : run_env :=
  {| polls := [(byte_ff +:+ "<<exit>>" +:+ nl, EmptyString)]; late := quiet;
     tmp_stdout := Some stdout_log; tmp_stderr := Some stderr_log |}.

(** [sleep 29.9; echo hi] with a deadline of 30 seconds: the shell answers
    during the sleep that the deadline interrupts. *)
Definition late_echo : run_env :=
  {| polls := [quiet; quiet; quiet; quiet];
     late := ("hi" +:+ nl +:+ "<<exit>>" +:+ nl, EmptyString);
     tmp_stdout := Some stdout_log; tmp_stderr := Some stderr_log |}.

(** C3, as the specification states it, fails in two ways.  On output that
    is not UTF-8: the stdout of [printf '\377'] contains the sentinel at the
    first poll, before the timeout, and [run] returns nothing: line 79 raises
    [UnicodeDecodeError], the session is not marked as timed out and the
    buffers keep what they hold.  On output that arrives between the last
    poll and the deadline: the stdout buffer contains the sentinel before
    the timeout, no poll reads it, and [run] raises the timeout error. *)
Lemma run_fails_though_sentinel_arrived :
  ready shell (spawn 0) /\
  (contains _sentinel (seen_stdout (spawn 0) (polls printf_ff) 0) = true /\
   run shell "printf '\377'" printf_ff =
     ({| _started := true; _timed_out := false;
         _process :=
           Some {| pid := 0; returncode := None;
                   stdout_buffer := byte_ff +:+ "<<exit>>" +:+ nl;
                   stderr_buffer := EmptyString;
                   io := [StdinWrite ("printf '\377'; echo '<<exit>>'" +:+ nl);
                          StdinDrain; ReadStdout] |} |},
      [], Raised UnicodeDecodeError)) /\
  (exists at_timeout,
     _process (fst (fst (run shell "sleep 29.9; echo hi" late_echo))) = Some at_timeout /\
     stdout_buffer at_timeout = "hi" +:+ nl +:+ "<<exit>>" +:+ nl /\
     contains _sentinel (stdout_buffer at_timeout) = true /\
     snd (run shell "sleep 29.9; echo hi" late_echo) =
       Raised (ToolError (preview_message EmptyString EmptyString))).
Proof.
  split; [repeat split|]. split; [split; reflexivity|].
  eexists. repeat split.
Qed.

(** C3: on a started session that has neither timed out nor lost its shell,
    when poll [k] completes before the deadline and is the first at which
    the accumulated stdout contains the sentinel, both buffers being
    well-formed UTF-8 at every poll up to [k], [run] returns the stdout
    before the first occurrence of the sentinel and the accumulated stderr,
    each with at most one trailing newline removed. *)
Theorem run_returns_output_before_sentinel
    (self : BashSession) (cmd : string) (env : run_env) (p : Process) (k : nat) :
  ready self p ->
  (k < length (polls env))%nat ->
  (forall j, (j <= k)%nat -> decodes p (polls env) j) ->
  (forall j, (j < k)%nat -> contains _sentinel (seen_stdout p (polls env) j) = false) ->
  contains _sentinel (seen_stdout p (polls env) k) = true ->
  let out := seen_stdout p (polls env) k in
  let err := seen_stderr p (polls env) k in
  let pre := before_first _sentinel out in
  snd (run self cmd env) = Returned (CLIResult (chomp pre) (chomp err)) /\
  (exists post, out = pre +:+ _sentinel +:+ post) /\
  (forall q, (q < String.length pre)%nat ->
             substring q (String.length _sentinel) out <> _sentinel) /\
  strip_one_newline pre (chomp pre) /\
  strip_one_newline err (chomp err).
Proof.
  intros Hready Hk Hdec Hearlier Hhit out err pre.
  split; [|split; [|split; [|split]]].
  - rewrite (run_ready _ _ _ _ Hready).
    rewrite (poll_breaks (polls env) None (asked cmd p) k Hk Hdec Hearlier Hhit).
    reflexivity.
  - destruct (contains_index _ _ Hhit) as [i Hi].
    subst pre. unfold before_first. fold out in Hi. rewrite Hi.
    exists (drop (i + String.length _sentinel) out).
    apply (proj1 (index_split _ _ _ Hi)).
  - destruct (contains_index _ _ Hhit) as [i Hi].
    subst pre. unfold before_first. fold out in Hi. rewrite Hi.
    apply (proj2 (index_split _ _ _ Hi)).
  - apply chomp_spec.
  - apply chomp_spec.
Qed.

(** [run("echo hi")], the shell answering within the second poll, returns
    [{output: "hi", error: ""}]. *)
Lemma run_echo_hi :
  snd (run shell "echo hi" echo_hi) = Returned (CLIResult "hi" EmptyString).
Proof.
  refine (proj1 (run_returns_output_before_sentinel shell "echo hi" echo_hi (spawn 0) 1
                   _ _ _ _ _)).
  - repeat split.
  - simpl. lia.
  - intros j Hj.
    assert (j = 0 \/ j = 1)%nat as [-> | ->] by lia; split; reflexivity.
  - intros j Hj. assert (j = 0)%nat as -> by lia. reflexivity.
  - reflexivity.
Defined.

(** C10: when the deadline falls in the first sleep, the handler reads
    [output] before any assignment to it and [run] raises
    [UnboundLocalError], whatever the shell has printed by then; the session
    is left marked as timed out, and no [ToolError] is produced. *)
Theorem run_deadline_in_first_sleep
    (self : BashSession) (cmd : string) (env : run_env) (p : Process) :
  ready self p ->
  polls env = [] ->
  run self cmd env =
    ({| _started := true; _timed_out := true;
        _process := Some (feed (late env) (asked cmd p)) |},
     [], Raised (UnboundLocalError "output")).
Proof.
  intros Hready Hpolls. rewrite (run_ready _ _ _ _ Hready), Hpolls. reflexivity.
Qed.

Lemma run_no_poll :
  run shell "sleep 100" no_poll =
    ({| _started := true; _timed_out := true;
        _process := Some (asked "sleep 100" (spawn 0)) |},
     [], Raised (UnboundLocalError "output")).
Proof.
  apply (run_deadline_in_first_sleep shell "sleep 100" no_poll (spawn 0)).
  - repeat split.
  - reflexivity.
Defined.

(** Once a poll has completed the handler does produce a [ToolError]: the one
    of line 112, with the previews of what the last poll read. *)
Lemma run_deadline_after_a_poll
    (self : BashSession) (cmd : string) (env : run_env) (p : Process) (k : nat) :
  ready self p ->
  length (polls env) = S k ->
  (forall j, (j <= k)%nat -> decodes p (polls env) j) ->
  (forall j, (j <= k)%nat -> contains _sentinel (seen_stdout p (polls env) j) = false) ->
  snd (run self cmd env) =
    Raised (ToolError (preview_message (clipped (seen_stdout p (polls env) k))
                                       (clipped (seen_stderr p (polls env) k)))) /\
  _timed_out (fst (fst (run self cmd env))) = true.
Proof.
  intros Hready Hlen Hdec Hnone.
  rewrite (run_ready _ _ _ _ Hready).
  rewrite (poll_deadline (polls env) None (asked cmd p)).
  - rewrite Hlen. cbn [snd fst]. split; [|reflexivity].
    apply on_timeout_raises_preview.
  - intros j Hj. apply Hdec. lia.
  - intros j Hj. apply Hnone. lia.
Qed.

(** C1: [run("sleep 100")] times out with both log files written, and the
    error it raises carries the message of line 112, in which neither file
    name appears. *)
Theorem timeout_error_omits_log_paths :
  snd (fst (run shell "sleep 100" sleep_100)) =
    [(stdout_log, EmptyString); (stderr_log, EmptyString)] /\
  snd (run shell "sleep 100" sleep_100) =
    Raised (ToolError (preview_message EmptyString EmptyString)) /\
  contains stdout_log (preview_message EmptyString EmptyString) = false /\
  contains stderr_log (preview_message EmptyString EmptyString) = false /\
  preview_message EmptyString EmptyString <>
    saved_message stdout_log stderr_log EmptyString EmptyString.
Proof.
  repeat split; try reflexivity. vm_compute. discriminate.
Qed.

End SessionFacts.

(** ** The session over its lifetime *)

Module SessionLifecycle.

Import Str StrFacts Session SessionFacts.

(** What can happen to a session object: one of its three methods is called,
    or its shell prints something, or its shell exits. *)
Inductive step : BashSession -> BashSession -> Prop :=
  | step_start self spawned :
      step self (start self spawned)
  | step_stop self :
      step self (fst (stop self))
  | step_run self cmd env :
      step self (fst (fst (run self cmd env)))
  | step_feed self p chunk :
      _process self = Some p -> step self (with_process self (feed chunk p))
  | step_exits self p code :
      _process self = Some p -> step self (with_process self (exits code p)).

(** A started session that has timed out. *)
Definition poisoned (self : BashSession) : Prop :=
  _started self = true /\ _timed_out self = true /\ exists p, _process self = Some p.

(** What [run] answers when the shell has exited. *)
Definition must_be_restarted (rc : Z) : ToolResult :=
  mkToolResult None (Some ("bash has exited with returncode " +:+ of_int rc))
    (Some "tool must be restarted").

(** A timeout error: a [ToolError] whose message starts with "timed out". *)
Definition timeout_error (e : exn) : Prop :=
  exists m, e = ToolError m /\ String.prefix timed_out_prefix m = true.

(** A poisoned session answers [run] without touching anything: the session
    (its process, buffers and I/O log with it) is returned as it was and no
    file is written. *)
Lemma run_poisoned (self : BashSession) (cmd : string) (env : run_env) (p : Process) :
  poisoned self ->
  _process self = Some p ->
  run self cmd env =
    (self, [],
     match returncode p with
     | None => Raised (ToolError timed_out_prefix)
     | Some rc => Returned (must_be_restarted rc)
     end).
Proof.
  intros (Hs & Ht & _) Hp. unfold run. rewrite Hs, Hp, Ht. cbn [negb].
  destruct (returncode p); reflexivity.
Qed.

(** No method and no event clears [_timed_out]. *)
Lemma step_keeps_timed_out (self self' : BashSession) :
  step self self' -> _timed_out self = true -> _timed_out self' = true.
Proof.
  intros Hstep Ht. destruct Hstep as [self sp|self|self cmd env|self p c Hp|self p c Hp].
  - unfold start. destruct (_started self); [exact Ht | exact Ht].
  - unfold stop. destruct (_started self); cbn [negb fst]; [|exact Ht].
    destruct (_process self) as [p|]; [|exact Ht].
    destruct (returncode p); exact Ht.
  - unfold run. destruct (_started self); cbn [negb fst]; [|exact Ht].
    destruct (_process self) as [p|]; [|exact Ht].
    destruct (returncode p); [exact Ht|]. rewrite Ht. exact Ht.
  - exact Ht.
  - exact Ht.
Qed.

Lemma step_keeps_poisoned (self self' : BashSession) :
  step self self' -> poisoned self -> poisoned self'.
Proof.
  intros Hstep Hpo. pose proof Hpo as (Hs & Ht & p & Hp).
  destruct Hstep as [self sp|self|self cmd env|self q c Hq|self q c Hq].
  - unfold start. now rewrite Hs.
  - unfold stop. rewrite Hs, Hp. cbn [negb].
    destruct (returncode p); cbn [fst]; [exact Hpo|].
    repeat split; cbn; eauto.
  - rewrite (run_poisoned _ _ _ _ Hpo Hp). exact Hpo.
  - repeat split; cbn; eauto.
  - repeat split; cbn; eauto.
Qed.

Lemma steps_keep_poisoned (self self' : BashSession) :
  rtc step self self' -> poisoned self -> poisoned self'.
Proof.
  induction 1 as [|x y z Hxy _ IH]; [tauto|].
  intros Hx. apply IH. exact (step_keeps_poisoned _ _ Hxy Hx).
Qed.

(** A [run] that raises a timeout error leaves the session poisoned. *)
Lemma timeout_poisons (self : BashSession) (cmd : string) (env : run_env) (e : exn) :
  snd (run self cmd env) = Raised e ->
  timeout_error e ->
  poisoned (fst (fst (run self cmd env))).
Proof.
  intros Hrun (m & -> & Hm). revert Hrun. unfold run.
  destruct (_started self) eqn:Hs; cbn [negb].
  2:{ cbn. intros [= <-]. vm_compute in Hm. discriminate. }
  destruct (_process self) as [p|] eqn:Hp; [|cbn; discriminate].
  destruct (returncode p) eqn:Hr; [cbn; discriminate|].
  destruct (_timed_out self) eqn:Ht.
  - cbn. intros _. repeat split; eauto.
  - destruct (poll (polls env) None _) as [p' [o x|[[o x]|]|]].
    + cbn. discriminate.
    + destruct (on_timeout env o x). cbn. intros _. repeat split; eauto.
    + cbn. discriminate.
    + cbn. discriminate.
Qed.

(** C2, as the code has it: once a [run] has raised a timeout error, whatever
    the session's methods and its shell do afterwards, every later [run]
    leaves the session as it is (nothing is written to the shell or read from
    it, no file is written) and does not run the command: it raises the
    timeout error while the shell is alive, and returns the "tool must be
    restarted" result once the shell has exited.  [_timed_out] stays set. *)
Theorem run_after_timeout
    (self : BashSession) (cmd : string) (env : run_env) (e : exn)
    (later : BashSession) (cmd' : string) (env' : run_env) :
  snd (run self cmd env) = Raised e ->
  timeout_error e ->
  rtc step (fst (fst (run self cmd env))) later ->
  _timed_out later = true /\
  exists p,
    _process later = Some p /\
    run later cmd' env' =
      (later, [],
       match returncode p with
       | None => Raised (ToolError timed_out_prefix)
       | Some rc => Returned (must_be_restarted rc)
       end).
Proof.
  intros Hrun He Hsteps.
  pose proof (steps_keep_poisoned _ _ Hsteps (timeout_poisons _ _ _ _ Hrun He)) as Hpo.
  pose proof Hpo as (_ & Ht & p & Hp).
  split; [exact Ht|]. exists p. split; [exact Hp|].
  apply run_poisoned; assumption.
Qed.

(** The shell of [self] exits with code [code]. *)
Definition shell_exits (code : Z) (self : BashSession) : BashSession :=
  match _process self with
  | Some p => with_process self (exits code p)
  | None => self
  end.

(** [run("exit 3")]: the shell exits without echoing the sentinel, so the
    call times out after four silent polls. *)
Definition exit_3 : run_env :=
  {| polls := [quiet; quiet; quiet; quiet]; late := quiet;
     tmp_stdout := Some stdout_log; tmp_stderr := Some stderr_log |}.

Lemma run_after_sleep_100_and_stop :
  let timed_out := fst (fst (run shell "sleep 100" sleep_100)) in
  let later := fst (stop timed_out) in
  _timed_out later = true /\
  exists p,
    _process later = Some p /\
    run later "echo hi" echo_hi =
      (later, [],
       match returncode p with
       | None => Raised (ToolError timed_out_prefix)
       | Some rc => Returned (must_be_restarted rc)
       end).
Proof.
  intros timed_out later.
  apply (run_after_timeout shell "sleep 100" sleep_100
           (ToolError (preview_message EmptyString EmptyString)) later "echo hi" echo_hi).
  - reflexivity.
  - eexists. split; reflexivity.
  - apply rtc_once. apply step_stop.
Defined.

(** C2, as stated, fails: [run("exit 3")] raises the timeout error, the shell
    exits with code 3, and the next [run] does not fail: it returns the "tool
    must be restarted" result. *)
Lemma run_after_timeout_returns_when_shell_exited :
  let timed_out := fst (fst (run shell "exit 3" exit_3)) in
  let later := shell_exits 3 timed_out in
  snd (run shell "exit 3" exit_3) =
    Raised (ToolError (preview_message EmptyString EmptyString)) /\
  timeout_error (ToolError (preview_message EmptyString EmptyString)) /\
  rtc step timed_out later /\
  snd (run later "echo hi" echo_hi) =
    Returned (mkToolResult None (Some "bash has exited with returncode 3")
                (Some "tool must be restarted")) /\
  ~ exists e, snd (run later "echo hi" echo_hi) = Raised e.
Proof.
  intros timed_out later. split; [reflexivity|]. split.
  { eexists. split; reflexivity. }
  split.
  { apply rtc_once. unfold later, shell_exits.
    destruct (_process timed_out) as [p|] eqn:Hp; [|discriminate].
    now apply step_exits. }
  split; [reflexivity|].
  intros [e He]. vm_compute in He. discriminate.
Qed.

(** *** Successive calls *)

(** [run] called once per entry of [calls], each call on the session the
    previous one left: the session after each call and what the call did. *)
Fixpoint run_all (self : BashSession) (calls : list (string * run_env))
    : list (BashSession * outcome ToolResult) :=
  match calls with
  | [] => []
  | (cmd, env) :: rest =>
      let self' := fst (fst (run self cmd env)) in
      (self', snd (run self cmd env)) :: run_all self' rest
  end.

(** A successful [run]: it returns the [CLIResult] of line 124. *)
Definition successful (r : outcome ToolResult) : Prop :=
  exists o e, r = Returned (CLIResult o e).

Definition buffers_empty (self : BashSession) : Prop :=
  exists p, _process self = Some p /\
            stdout_buffer p = EmptyString /\ stderr_buffer p = EmptyString.

Lemma run_success_clears (self : BashSession) (cmd : string) (env : run_env) :
  successful (snd (run self cmd env)) ->
  buffers_empty (fst (fst (run self cmd env))).
Proof.
  intros (o & e & H). revert H. unfold run.
  destruct (_started self); cbn [negb]; [|cbn; discriminate].
  destruct (_process self) as [p|]; [|cbn; discriminate].
  destruct (returncode p); [cbn; discriminate|].
  destruct (_timed_out self); [cbn; discriminate|].
  destruct (poll (polls env) None _) as [p' [o' x|[[o' x]|]|]].
  - intros _. cbn. exists (clear_buffers p'). repeat split.
  - destruct (on_timeout env o' x) as [fs r] eqn:E. cbn [snd].
    pose proof (on_timeout_raises_preview env o' x) as R. rewrite E in R.
    cbn [snd] in R. rewrite R. discriminate.
  - cbn. discriminate.
  - cbn. discriminate.
Qed.

(** C4: in any sequence of [run] calls on one session, each call that
    succeeds leaves both buffers empty; so after [N] successful calls in a
    row the buffers hold nothing, whatever [N]. *)
Theorem successful_runs_leave_buffers_empty
    (self : BashSession) (calls : list (string * run_env)) :
  Forall (fun after => successful (snd after) -> buffers_empty (fst after))
         (run_all self calls).
Proof.
  revert self. induction calls as [|[cmd env] rest IH]; intros self.
  - constructor.
  - cbn [run_all]. constructor.
    + cbn [fst snd]. apply run_success_clears.
    + apply IH.
Qed.

(** Three [run("echo hi")] in a row all succeed, so the premise of C4 is met
    by a sequence of any such length. *)
Lemma three_successful_runs :
  Forall (fun after => successful (snd after) /\ buffers_empty (fst after))
         (run_all shell [("echo hi", echo_hi); ("echo hi", echo_hi); ("echo hi", echo_hi)]).
Proof.
  pose proof (successful_runs_leave_buffers_empty shell
                [("echo hi", echo_hi); ("echo hi", echo_hi); ("echo hi", echo_hi)]) as H.
  cbn [run_all] in *.
  repeat match goal with
         | H : Forall _ (_ :: _) |- _ =>
             apply Forall_cons_iff in H; destruct H as [? H]
         end.
  repeat constructor; try (apply H0 || apply H1 || apply H2);
    exists "hi", EmptyString; reflexivity.
Defined.

End SessionLifecycle.

(** ** The manager *)

Module ManagerFacts.

Import Str Session Manager SessionFacts.

(** The states a manager can be in when [execute] is called: it holds no
    session, or a session whose shell runs, or one whose shell has exited, or
    one that has timed out. *)
Inductive prior_state (self : BashSessionManager) : Prop :=
  | no_session :
      _session self = None -> prior_state self
  | running_session s p :
      _session self = Some s -> _started s = true -> _timed_out s = false ->
      _process s = Some p -> returncode p = None -> prior_state self
  | exited_session s p rc :
      _session self = Some s -> _started s = true ->
      _process s = Some p -> returncode p = Some rc -> prior_state self
  | poisoned_session s p :
      _session self = Some s -> _started s = true -> _timed_out s = true ->
      _process s = Some p -> prior_state self.

Lemma started_prior_state (self : BashSessionManager) (s : BashSession) (p : Process) :
  _session self = Some s -> _started s = true -> _process s = Some p ->
  prior_state self.
Proof.
  intros Hs Hst Hp. destruct (returncode p) as [rc|] eqn:Hr.
  - eapply exited_session; eassumption.
  - destruct (_timed_out s) eqn:Ht.
    + eapply poisoned_session; eassumption.
    + eapply running_session; eassumption.
Qed.

Lemma prior_state_started (self : BashSessionManager) (s : BashSession) :
  prior_state self -> _session self = Some s ->
  _started s = true /\ exists p, _process s = Some p.
Proof.
  intros [H|s' p H Hst _ Hp _|s' p rc H Hst Hp _|s' p H Hst _ Hp] Hs;
    rewrite Hs in H; try discriminate; injection H as <-; eauto.
Qed.

(** [stop] on a started session does not raise; it signals the shell when it
    is still running and does nothing else. *)
Lemma stop_started (s : BashSession) (p : Process) :
  _started s = true -> _process s = Some p ->
  Session.stop s =
    (match returncode p with
     | Some _ => s
     | None => with_process s (log [Terminate] p)
     end, Returned tt).
Proof.
  intros Hst Hp. unfold Session.stop. rewrite Hst, Hp. cbn [negb].
  destruct (returncode p); reflexivity.
Qed.

(** [run] keeps a started session started, with a process. *)
Lemma run_keeps_started (s : BashSession) (cmd : string) (env : run_env) :
  (_started s = true /\ exists p, _process s = Some p) ->
  _started (fst (fst (run s cmd env))) = true /\
  exists p, _process (fst (fst (run s cmd env))) = Some p.
Proof.
  intros (Hst & p & Hp). unfold run. rewrite Hst, Hp. cbn [negb].
  destruct (returncode p); [cbn; eauto|].
  destruct (_timed_out s); [cbn; eauto|].
  destruct (poll (polls env) None _) as [p' [o x|[[o x]|]|]]; cbn; eauto.
  destruct (on_timeout env o x). cbn. eauto.
Qed.

(** [execute] when the spawn succeeds, branch by branch. *)
Lemma execute_spawned
    (self : BashSessionManager) (cmd : option string) (restart : bool) (env : run_env) :
  execute self cmd restart env =
    if restart then
      match _session self with
      | Some s =>
          let '(s', stopped) := Session.stop s in
          match stopped with
          | Raised e => (with_session self s', [], Raised e)
          | Returned _ => (start_new (with_session self s'), [], Returned restarted)
          end
      | None => (start_new self, [], Returned restarted)
      end
    else
      let '(self, s) :=
        match _session self with
        | Some s => (self, s)
        | None => (start_new self, fresh_session (spawned self))
        end in
      match cmd with
      | Some c =>
          let '(s', files, r) := Session.run s c env in
          (with_session self s', files, r)
      | None => (self, [], Raised (ToolError "no command provided."))
      end.
Proof.
  unfold execute, execute_spawning. destruct restart.
  - destruct (_session self) as [s|]; [|reflexivity].
    destruct (Session.stop s) as [s' [[]|e]]; reflexivity.
  - destruct (_session self) as [s|] eqn:Hs.
    + rewrite Hs. destruct cmd; reflexivity.
    + destruct cmd; reflexivity.
Qed.

(** The manager is in one of the four states from its creation on. *)
Lemma init_prior_state : prior_state Manager.init.
Proof. now apply no_session. Qed.

Lemma execute_keeps_prior_state
    (self : BashSessionManager) (cmd : option string) (restart : bool) (env : run_env) :
  prior_state self ->
  prior_state (fst (fst (execute self cmd restart env))).
Proof.
  intros Hprior. rewrite execute_spawned. destruct restart.
  - destruct (_session self) as [s|] eqn:Hs.
    + destruct (prior_state_started _ _ Hprior Hs) as (Hst & p & Hp).
      rewrite (stop_started _ _ Hst Hp). cbn [fst].
      eapply started_prior_state; reflexivity.
    + cbn [fst]. eapply started_prior_state; reflexivity.
  - destruct (_session self) as [s|] eqn:Hs.
    + destruct cmd as [c|]; [|exact Hprior].
      destruct (prior_state_started _ _ Hprior Hs) as (Hst & p & Hp).
      destruct (run_keeps_started s c env (conj Hst (ex_intro _ p Hp))) as (Hst' & p' & Hp').
      destruct (run s c env) as [[s' files] r]. cbn [fst] in *.
      eapply started_prior_state; [reflexivity | exact Hst' | exact Hp'].
    + destruct cmd as [c|].
      * destruct (run_keeps_started (fresh_session (spawned self)) c env) as (Hst' & p' & Hp').
        { split; [reflexivity | eexists; reflexivity]. }
        destruct (run (fresh_session (spawned self)) c env) as [[s' files] r].
        cbn [fst] in *.
        eapply started_prior_state; [reflexivity | exact Hst' | exact Hp'].
      * cbn [fst]. eapply started_prior_state; reflexivity.
Qed.


(** A manager whose session has timed out on [sleep 100]. *)
Definition stuck : BashSessionManager :=
  fst (fst (execute Manager.init (Some "sleep 100") false sleep_100)).


(** C8, as stated, fails: the session a restart creates is another session,
    on another shell, and its sentinel is the one of the session before. *)
Lemma restart_keeps_the_sentinel :
  let before := fst (fst (execute Manager.init None true echo_hi)) in
  let after := fst (fst (execute before None true echo_hi)) in
  exists s1 s2,
    _session before = Some s1 /\ _session after = Some s2 /\
    s1 <> s2 /\ sentinel_of s1 = sentinel_of s2.
Proof.
  intros before after. do 2 eexists.
  split; [reflexivity|]. split; [reflexivity|]. split; [discriminate | reflexivity].
Qed.

Lemma poll_io chunks :
  forall locals p, exists events, io (fst (poll chunks locals p)) = (io p ++ events)%list.
Proof.
  induction chunks as [|chunk rest IH]; intros locals p.
  - exists []. cbn. now rewrite app_nil_r.
  - cbn [poll]. cbv zeta.
    destruct (decode (stdout_buffer (feed chunk p))) as [output|]; [|cbn; eauto].
    destruct (decode _) as [error|]; [|cbn; eauto].
    destruct (index_of _sentinel output).
    + cbn. eauto.
    + destruct (IH (Some (output, error))
                  (log [ReadStdout; ReadStderr] (feed chunk p))) as [ev Hev].
      rewrite Hev. cbn [log io]. rewrite <- app_assoc. eauto.
Qed.

(** C8, as the code has it: the sentinel is the literal [<<exit>>] of the
    class, the same for every session and every command; each [run] that
    reaches the shell writes the command followed by an [echo] of that
    literal. *)
Theorem sentinel_is_one_literal
    (s1 s2 : BashSession) (cmd : string) (env : run_env) (p : Process) :
  sentinel_of s1 = "<<exit>>" /\
  sentinel_of s1 = sentinel_of s2 /\
  (ready s1 p ->
   exists p' events,
     _process (fst (fst (run s1 cmd env))) = Some p' /\
     io p' = (io p ++ StdinWrite (cmd +:+ "; echo '<<exit>>'" +:+ nl) :: events)%list).
Proof.
  split; [reflexivity|]. split; [reflexivity|].
  intros Hready. rewrite (run_ready _ _ _ _ Hready).
  destruct (poll_io (polls env) None (asked cmd p)) as [ev Hev].
  destruct (poll (polls env) None (asked cmd p)) as [p' [o x|[[o x]|]|]];
    cbn [fst] in *.
  - exists (clear_buffers p'), (StdinDrain :: ev ++ [ClearStdout; ClearStderr])%list.
    split; [reflexivity|]. cbn [clear_buffers io]. rewrite Hev.
    cbn [asked log io]. rewrite <- !app_assoc. reflexivity.
  - exists (feed (late env) p'), (StdinDrain :: ev). split; [reflexivity|].
    cbn [feed io]. rewrite Hev. cbn [asked log io]. rewrite <- !app_assoc. reflexivity.
  - exists (feed (late env) p'), (StdinDrain :: ev). split; [reflexivity|].
    cbn [feed io]. rewrite Hev. cbn [asked log io]. rewrite <- !app_assoc. reflexivity.
  - exists p', (StdinDrain :: ev). split; [reflexivity|].
    rewrite Hev. cbn [asked log io]. rewrite <- !app_assoc. reflexivity.
Qed.

(** The first thing [run("echo hi")] writes to a fresh shell. *)
Lemma echo_hi_is_framed_by_the_literal :
  exists p' events,
    _process (fst (fst (run shell "echo hi" echo_hi))) = Some p' /\
    io p' = StdinWrite ("echo hi; echo '<<exit>>'" +:+ nl) :: events.
Proof.
  apply (proj2 (proj2 (sentinel_is_one_literal shell shell "echo hi" echo_hi (spawn 0)))).
  repeat split.
Defined.

End ManagerFacts.

(** ** The grading pipeline *)

Module GradingFacts.

Import Str StrFacts Grading.













End GradingFacts.

(** ** The order of floats *)

Module FloatFacts.

(** A float that is not NaN. *)
Definition number (x : float) : Prop := is_nan x = false.

Ltac split_compare :=
  repeat match goal with
         | H : context [(?a ?= ?b)%Z] |- _ => destruct (Z.compare_spec a b)
         | |- context [(?a ?= ?b)%Z] => destruct (Z.compare_spec a b)
         | H : context [Pos.compare ?a ?b] |- _ => destruct (Pos.compare_spec a b)
         | |- context [Pos.compare ?a ?b] => destruct (Pos.compare_spec a b)
         end.

Lemma SFcompare_refl (x : spec_float) : x <> S754_nan -> SFcompare x x = Some Eq.
Proof.
  destruct x as [s|s| |s m e]; cbn; try congruence; intros _.
  - now destruct s.
  - change (PosDef.Pos.compare_cont Eq) with Pos.compare.
    rewrite Z.compare_refl, Pos.compare_refl. now destruct s.
Qed.

Lemma SFcompare_total (x y : spec_float) :
  x <> S754_nan -> y <> S754_nan -> exists c, SFcompare x y = Some c.
Proof. destruct x, y; cbn; eauto; congruence. Qed.

Lemma SFcompare_antisym (x y : spec_float) (c : comparison) :
  SFcompare x y = Some c -> SFcompare y x = Some (CompOpp c).
Proof.
  destruct x as [s|s| |s m e], y as [s'|s'| |s' m' e']; cbn; try congruence;
    try (destruct s; intros [= <-]; reflexivity);
    try (destruct s'; intros [= <-]; reflexivity);
    try (destruct s, s'; intros [= <-]; reflexivity).
  change (PosDef.Pos.compare_cont Eq) with Pos.compare. intros [= <-]. f_equal.
  rewrite (Z.compare_antisym e e'), (Pos.compare_antisym m m').
  destruct s, s'; try reflexivity;
    destruct (e ?= e')%Z; cbn; try reflexivity; destruct (m ?= m')%positive; reflexivity.
Qed.

Lemma SFcompare_le_lt (x y z : spec_float) :
  (SFcompare x y = Some Lt \/ SFcompare x y = Some Eq) ->
  SFcompare y z = Some Lt ->
  SFcompare x z = Some Lt.
Proof.
  destruct x as [s|s| |s m e], y as [s'|s'| |s' m' e'], z as [s''|s''| |s'' m'' e''];
    cbn; try (intros [?|?]; congruence); try congruence;
    try (destruct s; try destruct s'; try destruct s''; intros [?|?]; congruence).
  all: change (PosDef.Pos.compare_cont Eq) with Pos.compare in *.
  all: destruct s, s', s''; try (intros [?|?]; congruence); try congruence.
  all: intros [H|H] H'; injection H as H; injection H' as H'; f_equal;
       split_compare; cbn in *; try congruence; try lia.
Qed.

Lemma SFcompare_lt_le (x y z : spec_float) :
  SFcompare x y = Some Lt ->
  (SFcompare y z = Some Lt \/ SFcompare y z = Some Eq) ->
  SFcompare x z = Some Lt.
Proof.
  destruct x as [s|s| |s m e], y as [s'|s'| |s' m' e'], z as [s''|s''| |s'' m'' e''];
    cbn; try (intros ? [?|?]; congruence); try congruence;
    try (destruct s; try destruct s'; try destruct s''; intros ? [?|?]; congruence).
  all: change (PosDef.Pos.compare_cont Eq) with Pos.compare in *.
  all: destruct s, s', s''; try (intros ? [?|?]; congruence); try congruence.
  all: intros H [H'|H']; injection H as H; injection H' as H'; f_equal;
       split_compare; cbn in *; try congruence; try lia.
Qed.

Lemma number_spec (x : float) : number x <-> Prim2SF x <> S754_nan.
Proof.
  unfold number, is_nan. rewrite FloatAxioms.eqb_spec. unfold SFeqb. split.
  - intros H E. rewrite E in H. discriminate.
  - intros H. now rewrite SFcompare_refl.
Qed.

Lemma leb_refl (x : float) : number x -> (x <=? x)%float = true.
Proof.
  intros H. apply number_spec in H. rewrite FloatAxioms.leb_spec. unfold SFleb.
  now rewrite SFcompare_refl.
Qed.

Lemma ltb_leb (x y : float) : (x <? y)%float = true -> (x <=? y)%float = true.
Proof.
  rewrite FloatAxioms.ltb_spec, FloatAxioms.leb_spec. unfold SFltb, SFleb.
  destruct (SFcompare _ _) as [[]|]; congruence.
Qed.

(** Two numbers compare one way or the other. *)
Lemma ltb_false_leb (x y : float) :
  number x -> number y -> (x <? y)%float = false -> (y <=? x)%float = true.
Proof.
  intros Hx Hy. apply number_spec in Hx, Hy.
  rewrite FloatAxioms.ltb_spec, FloatAxioms.leb_spec. unfold SFltb, SFleb.
  destruct (SFcompare_total _ _ Hx Hy) as [c Hc].
  rewrite Hc, (SFcompare_antisym _ _ _ Hc). now destruct c.
Qed.

Lemma leb_false_ltb (x y : float) :
  number x -> number y -> (x <=? y)%float = false -> (y <? x)%float = true.
Proof.
  intros Hx Hy. apply number_spec in Hx, Hy.
  rewrite FloatAxioms.ltb_spec, FloatAxioms.leb_spec. unfold SFltb, SFleb.
  destruct (SFcompare_total _ _ Hx Hy) as [c Hc].
  rewrite Hc, (SFcompare_antisym _ _ _ Hc). now destruct c.
Qed.

Lemma ltb_leb_false (x y : float) : (x <? y)%float = true -> (y <=? x)%float = false.
Proof.
  rewrite FloatAxioms.ltb_spec, FloatAxioms.leb_spec. unfold SFltb, SFleb.
  destruct (SFcompare (Prim2SF x) (Prim2SF y)) as [c|] eqn:Hc; [|discriminate].
  rewrite (SFcompare_antisym _ _ _ Hc). now destruct c.
Qed.

Lemma leb_ltb_trans (x y z : float) :
  (x <=? y)%float = true -> (y <? z)%float = true -> (x <? z)%float = true.
Proof.
  rewrite FloatAxioms.leb_spec, !FloatAxioms.ltb_spec. unfold SFltb, SFleb. intros Hxy Hyz.
  rewrite (SFcompare_le_lt (Prim2SF x) (Prim2SF y) (Prim2SF z)); [reflexivity | |].
  - destruct (SFcompare (Prim2SF x) (Prim2SF y)) as [[]|]; auto; discriminate.
  - destruct (SFcompare (Prim2SF y) (Prim2SF z)) as [[]|]; auto; discriminate.
Qed.

Lemma ltb_leb_trans (x y z : float) :
  (x <? y)%float = true -> (y <=? z)%float = true -> (x <? z)%float = true.
Proof.
  rewrite FloatAxioms.leb_spec, !FloatAxioms.ltb_spec. unfold SFltb, SFleb. intros Hxy Hyz.
  rewrite (SFcompare_lt_le (Prim2SF x) (Prim2SF y) (Prim2SF z)); [reflexivity | |].
  - destruct (SFcompare (Prim2SF x) (Prim2SF y)) as [[]|]; auto; discriminate.
  - destruct (SFcompare (Prim2SF y) (Prim2SF z)) as [[]|]; auto; discriminate.
Qed.

(** Only a finite float with the same sign, mantissa and exponent compares
    equal to a finite float that is not zero. *)
Lemma SFcompare_Eq_finite (x : spec_float) (s : bool) (m : positive) (e : Z) :
  SFcompare x (S754_finite s m e) = Some Eq -> x = S754_finite s m e.
Proof.
  destruct x as [s'|s'| |s' m' e']; cbn; try (destruct s; discriminate);
    try (destruct s'; discriminate); try discriminate.
  change (PosDef.Pos.compare_cont Eq) with Pos.compare.
  destruct s', s; try discriminate;
    destruct (Z.compare_spec e' e); try discriminate;
    destruct (Pos.compare_spec m' m); try discriminate; now subst.
Qed.

(** The one float equal to 1 is 1. *)
Lemma eqb_1 (x : float) : (x =? 1)%float = true -> x = 1%float.
Proof.
  rewrite FloatAxioms.eqb_spec. unfold SFeqb.
  destruct (SFcompare (Prim2SF x) (Prim2SF 1)) as [[]|] eqn:E; try discriminate.
  intros _. apply Prim2SF_inj.
  change (Prim2SF 1) with (S754_finite false 4503599627370496 (-52)) in *.
  now apply SFcompare_Eq_finite.
Qed.

End FloatFacts.

(** ** The grade *)

Module GradeFacts.

Import GradeSpec FloatFacts.

(** [sum(self.weights.values())]. *)
Definition weights_sum (v : cpython) (g : Grade) : float := py_sum v (values (weights g)).

(** The float is finite and within numpy's default tolerance of 1. *)
Definition close_to_1 (x : float) : Prop :=
  is_finite x = true /\ (abs (x - 1) <=? 1e-08 + 1e-05)%float = true.

Definition key_sets_differ (g : Grade) : Prop :=
  ~ (forall k, In k (keys (subscores g)) <-> In k (keys (weights g))).

(** Some subscore is below 0 or above 1. *)
Definition out_of_range (g : Grade) : Prop :=
  exists k x, In (k, x) (subscores g) /\ ((x <? 0)%float = true \/ (1 <? x)%float = true).

(** [d[key]] for a key of [d]. *)
Definition item (d : dict) (key : string) : float :=
  match getitem d key with
  | Returned x => x
  | Raised _ => 0%float
  end.

(** The float sum, in the order of the subscores, of subscore times
    weight. *)
Definition weighted_sum (v : cpython) (g : Grade) : float :=
  py_sum v (map (fun kx => (snd kx * item (weights g) (fst kx))%float) (subscores g)).

Lemma existsb_eqb (k : string) (l : list string) :
  existsb (String.eqb k) l = true <-> In k l.
Proof.
  rewrite existsb_exists. split.
  - intros (x & Hx & E). apply String.eqb_eq in E. now subst.
  - intros H. exists k. split; [exact H | apply String.eqb_refl].
Qed.

(** On dictionaries [d.keys() == e.keys()] compares the key sets. *)
Lemma same_keys_spec (d e : dict) :
  is_dict d -> is_dict e ->
  same_keys d e = true <-> (forall k, In k (keys d) <-> In k (keys e)).
Proof.
  intros Hd He. unfold same_keys, is_dict, keys in *.
  rewrite andb_true_iff, Nat.eqb_eq, forallb_forall. split.
  - intros [Hlen Hincl].
    assert (incl (map fst d) (map fst e)) as Hde.
    { intros k Hk. apply existsb_eqb. now apply Hincl. }
    intros k. split; [apply Hde|].
    apply (NoDup_length_incl Hd); [|exact Hde].
    rewrite !length_map. lia.
  - intros Hsame. split.
    + assert (length (map fst d) <= length (map fst e))%nat as H1.
      { apply NoDup_incl_length; [exact Hd|]. intros k. apply Hsame. }
      assert (length (map fst e) <= length (map fst d))%nat as H2.
      { apply NoDup_incl_length; [exact He|]. intros k. apply Hsame. }
      rewrite !length_map in *. lia.
    + intros k Hk. apply existsb_eqb. now apply Hsame.
Qed.

Lemma isclose_1 (x : float) : isclose x 1 = true <-> close_to_1 x.
Proof.
  unfold isclose, close_to_1.
  change (is_finite 1) with true.
  change (atol + rtol * abs 1)%float with (1e-08 + 1e-05)%float.
  destruct (is_finite x) eqn:Hx; cbn [andb].
  - split; [now split | now intros [_ H]].
  - split; [|now intros [H _]].
    intros H. apply eqb_1 in H. subst x. vm_compute in Hx. discriminate.
Qed.

Lemma ltb_irrefl (x : float) : number x -> (x <? x)%float = false.
Proof.
  intros Hx. destruct (x <? x)%float eqn:E; [|reflexivity].
  apply ltb_leb_false in E. rewrite (leb_refl x Hx) in E. discriminate.
Qed.

(** [min] keeps an item that no item is below. *)
Lemma fold_min (rest : list float) :
  forall x,
    number x -> Forall number rest ->
    let m := fold_left (fun m y => if (y <? m)%float then y else m) rest x in
    (x <? m)%float = false /\
    (forall y, In y rest -> (y <? m)%float = false) /\
    (m = x \/ In m rest).
Proof.
  induction rest as [|a rest IH]; intros x Hx Hrest; cbn [fold_left].
  - split; [now apply ltb_irrefl|]. split; [intros y []|now left].
  - apply Forall_cons_iff in Hrest as [Ha Hrest].
    destruct (a <? x)%float eqn:Hax.
    + destruct (IH a Ha Hrest) as (H1 & H2 & H3). cbv zeta in *.
      set (m := fold_left _ rest a) in *.
      split; [|split].
      * destruct (x <? m)%float eqn:E; [|reflexivity].
        rewrite (leb_ltb_trans a x m (ltb_leb _ _ Hax) E) in H1. discriminate.
      * intros y [<-|Hy]; [exact H1 | now apply H2].
      * right. destruct H3 as [->|H3]; [now left | now right].
    + destruct (IH x Hx Hrest) as (H1 & H2 & H3). cbv zeta in *.
      set (m := fold_left _ rest x) in *.
      assert (number m) as Hm.
      { destruct H3 as [->|H3]; [exact Hx|].
        rewrite List.Forall_forall in Hrest. now apply Hrest. }
      split; [exact H1|]. split.
      * intros y [<-|Hy]; [|now apply H2].
        destruct (a <? m)%float eqn:E; [|reflexivity].
        rewrite (ltb_leb_trans a m x E (ltb_false_leb x m Hx Hm H1)) in Hax.
        discriminate.
      * destruct H3 as [->|H3]; [now left | right; now right].
Qed.

(** [max] keeps an item that no item is above. *)
Lemma fold_max (rest : list float) :
  forall x,
    number x -> Forall number rest ->
    let m := fold_left (fun m y => if (m <? y)%float then y else m) rest x in
    (m <? x)%float = false /\
    (forall y, In y rest -> (m <? y)%float = false) /\
    (m = x \/ In m rest).
Proof.
  induction rest as [|a rest IH]; intros x Hx Hrest; cbn [fold_left].
  - split; [now apply ltb_irrefl|]. split; [intros y []|now left].
  - apply Forall_cons_iff in Hrest as [Ha Hrest].
    destruct (x <? a)%float eqn:Hxa.
    + destruct (IH a Ha Hrest) as (H1 & H2 & H3). cbv zeta in *.
      set (m := fold_left _ rest a) in *.
      split; [|split].
      * destruct (m <? x)%float eqn:E; [|reflexivity].
        rewrite (ltb_leb_trans m x a E (ltb_leb _ _ Hxa)) in H1. discriminate.
      * intros y [<-|Hy]; [exact H1 | now apply H2].
      * right. destruct H3 as [->|H3]; [now left | now right].
    + destruct (IH x Hx Hrest) as (H1 & H2 & H3). cbv zeta in *.
      set (m := fold_left _ rest x) in *.
      assert (number m) as Hm.
      { destruct H3 as [->|H3]; [exact Hx|].
        rewrite List.Forall_forall in Hrest. now apply Hrest. }
      split; [exact H1|]. split.
      * intros y [<-|Hy]; [|now apply H2].
        destruct (m <? a)%float eqn:E; [|reflexivity].
        rewrite (leb_ltb_trans x m a (ltb_false_leb m x Hm Hx H1) E) in Hxa.
        discriminate.
      * destruct H3 as [->|H3]; [now left | right; now right].
Qed.

(** [min] of a non-empty list of numbers is one of them, at most each of
    them. *)
Lemma py_min_spec (l : list float) :
  l <> [] -> Forall number l ->
  exists m, py_min l = Returned m /\ In m l /\ number m /\
            forall y, In y l -> (m <=? y)%float = true.
Proof.
  destruct l as [|x rest]; [congruence|]. intros _ Hl.
  pose proof Hl as Hall. rewrite List.Forall_forall in Hall.
  apply Forall_cons_iff in Hl as [Hx Hrest].
  destruct (fold_min rest x Hx Hrest) as (H1 & H2 & H3).
  eexists. split; [reflexivity|].
  assert (In (fold_left (fun m y => if (y <? m)%float then y else m) rest x) (x :: rest))
    as Hin.
  { destruct H3 as [H3|H3]; [left; now rewrite H3 | now right]. }
  split; [exact Hin|]. split; [now apply Hall|].
  intros y Hy. apply ltb_false_leb; [now apply Hall | now apply Hall |].
  destruct Hy as [<-|Hy]; [exact H1 | now apply H2].
Qed.

Lemma py_max_spec (l : list float) :
  l <> [] -> Forall number l ->
  exists m, py_max l = Returned m /\ In m l /\ number m /\
            forall y, In y l -> (y <=? m)%float = true.
Proof.
  destruct l as [|x rest]; [congruence|]. intros _ Hl.
  pose proof Hl as Hall. rewrite List.Forall_forall in Hall.
  apply Forall_cons_iff in Hl as [Hx Hrest].
  destruct (fold_max rest x Hx Hrest) as (H1 & H2 & H3).
  eexists. split; [reflexivity|].
  assert (In (fold_left (fun m y => if (m <? y)%float then y else m) rest x) (x :: rest))
    as Hin.
  { destruct H3 as [H3|H3]; [left; now rewrite H3 | now right]. }
  split; [exact Hin|]. split; [now apply Hall|].
  intros y Hy. apply ltb_false_leb; [now apply Hall | now apply Hall |].
  destruct Hy as [<-|Hy]; [exact H1 | now apply H2].
Qed.

Lemma In_values (d : dict) (x : float) :
  In x (values d) <-> exists k, In (k, x) d.
Proof.
  unfold values. rewrite in_map_iff. split.
  - intros ([k x'] & <- & H). eauto.
  - intros [k H]. now exists (k, x).
Qed.

(** Weights that pass the second [assert] are not empty, and neither are
    subscores over the same keys: [min] and [max] do not raise. *)
Lemma subscores_not_empty (v : cpython) (g : Grade) :
  same_keys (subscores g) (weights g) = true ->
  isclose (weights_sum v g) 1 = true ->
  values (subscores g) <> [].
Proof.
  unfold same_keys, weights_sum. intros Hsame Hclose Hnil.
  destruct (subscores g) as [|i d]; [|discriminate].
  apply andb_prop in Hsame as [Hlen _]. apply Nat.eqb_eq in Hlen.
  destruct (weights g) as [|j e]; [|discriminate].
  destruct v; vm_compute in Hclose; discriminate.
Qed.

Lemma getitem_In (d : dict) (k : string) (a : float) :
  is_dict d -> In (k, a) d -> getitem d k = Returned a.
Proof.
  unfold is_dict, getitem. induction d as [|[k' a'] d IH]; intros Hd Hin; [destruct Hin|].
  cbn [map fst] in Hd. apply NoDup_cons_iff in Hd as [Hfresh Hd].
  cbn [find fst]. destruct (String.eqb_spec k' k) as [->|Hne].
  - destruct Hin as [[= <-]|Hin]; [reflexivity|].
    exfalso. apply Hfresh. apply in_map_iff. now exists (k, a).
  - destruct Hin as [[= -> _]|Hin]; [congruence|]. now apply IH.
Qed.

Lemma getitem_key (d : dict) (k : string) :
  In k (keys d) -> exists b, getitem d k = Returned b.
Proof.
  unfold keys, getitem. induction d as [|[k' a'] d IH]; intros Hin; [destruct Hin|].
  cbn [find fst]. destruct (String.eqb_spec k' k) as [->|Hne]; [eauto|].
  destruct Hin as [Hin|Hin]; [cbn in Hin; congruence | now apply IH].
Qed.

Lemma products_spec (s w : dict) (l : list (string * float)) :
  (forall k a, In (k, a) l ->
               getitem s k = Returned a /\ exists b, getitem w k = Returned b) ->
  products s w (map fst l) =
    Returned (map (fun kx => (snd kx * item w (fst kx))%float) l).
Proof.
  induction l as [|[k a] l IH]; intros H; [reflexivity|].
  cbn [map products fst snd]. unfold item.
  destruct (H k a (or_introl eq_refl)) as (Hs & b & Hw).
  rewrite Hs, Hw, IH; [reflexivity|].
  intros k' a' Hin. apply H. now right.
Qed.

Lemma products_keys (g : Grade) :
  is_dict (subscores g) ->
  (forall k, In k (keys (subscores g)) <-> In k (keys (weights g))) ->
  products (subscores g) (weights g) (keys (subscores g)) =
    Returned (map (fun kx => (snd kx * item (weights g) (fst kx))%float) (subscores g)).
Proof.
  intros Hd Hsame. unfold keys. apply products_spec.
  intros k a Hin. split; [now apply getitem_In|].
  apply getitem_key, Hsame. unfold keys. apply in_map_iff. now exists (k, a).
Qed.

(** Closes both halves of the goal once [score] has reduced to
    [Raised AssertionError]; [side] proves the disjunct that holds. *)
Ltac rejected side :=
  split;
  [ split; [intros _; side | reflexivity]
  | let H := fresh in intros H; exfalso; apply H; reflexivity ].

(** C6, as the code has it, for a grade none of whose subscores is NaN:
    [score] raises [AssertionError] exactly when the key sets differ, or
    the float sum of the weights is not close to 1 as [np.isclose] has it
    (it is not finite, or [|sum - 1| <= 1e-8 + 1e-5] fails in floating
    point), or some subscore is below 0 or above 1; otherwise it returns
    the float sum of subscore times weight, clipped to [[0, 1]]. *)
Theorem score_rejects_or_clips (v : cpython) (g : Grade) :
  is_dict (subscores g) ->
  is_dict (weights g) ->
  Forall number (values (subscores g)) ->
  (score v g = Raised AssertionError <->
   key_sets_differ g \/ ~ close_to_1 (weights_sum v g) \/ out_of_range g) /\
  (score v g <> Raised AssertionError ->
   score v g = Returned (clip (weighted_sum v g) 0 1)).
Proof.
  intros Hs Hw Hnum. unfold score, key_sets_differ.
  pose proof (same_keys_spec _ _ Hs Hw) as Hkeys.
  destruct (same_keys (subscores g) (weights g)) eqn:Hsame; cbn [py_assert bind].
  2:{ assert (~ (forall k, In k (keys (subscores g)) <-> In k (keys (weights g)))) as Hn.
      { intros H. apply Hkeys in H. discriminate. }
      rejected ltac:(now left). }
  fold (weights_sum v g).
  destruct (isclose (weights_sum v g) 1) eqn:Hclose; cbn [py_assert bind].
  2:{ assert (~ close_to_1 (weights_sum v g)) as Hn.
      { rewrite <- isclose_1, Hclose. discriminate. }
      rejected ltac:(now right; left). }
  pose proof (subscores_not_empty v g Hsame Hclose) as Hne.
  destruct (py_min_spec _ Hne Hnum) as (lo & -> & Hlo_in & Hlo_num & Hlo).
  destruct (py_max_spec _ Hne Hnum) as (hi & -> & Hhi_in & Hhi_num & Hhi).
  cbn [bind].
  destruct (0 <=? lo)%float eqn:Hlo0; cbn [py_assert bind].
  2:{ assert (out_of_range g) as Hout.
      { apply In_values in Hlo_in as [k Hk]. exists k, lo. split; [exact Hk|]. left.
        now apply leb_false_ltb. }
      rejected ltac:(now right; right). }
  destruct (hi <=? 1)%float eqn:Hhi1; cbn [py_assert bind].
  2:{ assert (out_of_range g) as Hout.
      { apply In_values in Hhi_in as [k Hk]. exists k, hi. split; [exact Hk|]. right.
        now apply leb_false_ltb. }
      rejected ltac:(now right; right). }
  rewrite (products_keys g Hs (proj1 Hkeys eq_refl)). cbn [bind]. fold (weighted_sum v g).
  split; [|reflexivity]. split; [discriminate|].
  intros [H|[H|(k & x & Hk & Hx)]].
  - exfalso. apply H. now apply Hkeys.
  - exfalso. apply H. now apply isclose_1.
  - exfalso.
    assert (In x (values (subscores g))) as Hin by (apply In_values; eauto).
    destruct Hx as [Hx|Hx].
    + pose proof (leb_ltb_trans lo x 0 (Hlo x Hin) Hx) as H.
      apply ltb_leb_false in H. congruence.
    + pose proof (ltb_leb_trans 1 x hi Hx (Hhi x Hin)) as H.
      apply ltb_leb_false in H. congruence.
Qed.

(** Two tests of equal weight, one passed. *)
Definition one_of_two : Grade :=
  {| subscores := [("Build", 1%float); ("Tests", 0%float)];
     weights := [("Build", 0.5%float); ("Tests", 0.5%float)];
     metadata := None |}.

Lemma one_of_two_scores_a_half :
  score before_3_12 one_of_two = Returned 0.5%float /\
  score from_3_12 one_of_two = Returned 0.5%float.
Proof.
  assert (is_dict (subscores one_of_two)) as Hs.
  { repeat constructor; cbn; intuition discriminate. }
  assert (is_dict (weights one_of_two)) as Hw.
  { repeat constructor; cbn; intuition discriminate. }
  assert (Forall number (values (subscores one_of_two))) as Hnum.
  { repeat constructor. }
  split.
  - rewrite (proj2 (score_rejects_or_clips before_3_12 one_of_two Hs Hw Hnum));
      [reflexivity | discriminate].
  - rewrite (proj2 (score_rejects_or_clips from_3_12 one_of_two Hs Hw Hnum));
      [reflexivity | discriminate].
Defined.

(** A weight of 1.000001 on the one subscore. *)
Definition overweight : Grade :=
  {| subscores := [("Tests", 1%float)];
     weights := [("Tests", 1.000001%float)];
     metadata := None |}.

(** A NaN subscore that is not the first one. *)
Definition not_a_number : Grade :=
  {| subscores := [("Build", 0.5%float); ("Tests", nan)];
     weights := [("Build", 0.5%float); ("Tests", 0.5%float)];
     metadata := None |}.

(** C6, as stated, fails in two ways.  The key sets agree, the subscore is
    in range, the weights sum to 1.000001 and not to 1, and [score] returns
    1.  And a subscore that is NaN, which is no number of [[0, 1]], is
    accepted when it is not the first one: [score] returns NaN. *)
Lemma score_accepts_weights_near_1_and_nan :
  (score before_3_12 overweight = Returned 1%float /\
   score from_3_12 overweight = Returned 1%float /\
   same_keys (subscores overweight) (weights overweight) = true /\
   ~ out_of_range overweight /\
   weights_sum before_3_12 overweight = 1.000001%float /\
   weights_sum from_3_12 overweight = 1.000001%float /\
   (1.000001 =? 1)%float = false /\
   close_to_1 1.000001%float) /\
  (score before_3_12 not_a_number = Returned nan /\
   score from_3_12 not_a_number = Returned nan /\
   In ("Tests", nan) (subscores not_a_number) /\
   (0 <=? nan)%float = false /\ (nan <=? 1)%float = false).
Proof.
  split.
  - repeat split; try reflexivity.
    intros (k & x & [[= <- <-]|[]] & [Hx|Hx]); vm_compute in Hx; discriminate.
  - repeat split; try reflexivity. right. now left.
Qed.

End GradeFacts.

(** * Further properties *)

(** ** More about strings *)

Module StrMore.

Import Str StrFacts.

(** A piece that lies within [a] is the same piece of [a +:+ b]. *)
Lemma substring_append_l (a b : string) :
  forall q m, (q + m <= String.length a)%nat ->
              substring q m (a +:+ b) = substring q m a.
Proof.
  induction a as [|c a IH]; intros q m H.
  - simpl in H. assert (q = 0 /\ m = 0)%nat as [-> ->] by lia.
    now destruct b.
  - rewrite append_cons. destruct q as [|q]; destruct m as [|m]; cbn [substring].
    + reflexivity.
    + f_equal. apply IH. simpl in H. lia.
    + apply IH. simpl in H. lia.
    + apply IH. simpl in H. lia.
Qed.

(** [index] finds nothing exactly when [pat] occurs nowhere. *)
Lemma no_occurrence_not_contains (pat s : string) :
  (forall q, substring q (String.length pat) s <> pat) ->
  contains pat s = false.
Proof.
  intros H. unfold contains.
  destruct (String.index 0 pat s) as [i|] eqn:E; [|reflexivity].
  apply index_correct1 in E. now apply H in E.
Qed.

(** The part of [s] before the first occurrence of a non-empty [pat], and
    every prefix of that part, is free of [pat]. *)
Lemma prefix_before_index (pat s a b : string) (i : nat) :
  pat <> EmptyString ->
  String.index 0 pat s = Some i ->
  take i s = a +:+ b ->
  contains pat a = false.
Proof.
  intros Hpat Hi Hab. apply no_occurrence_not_contains. intros q Hq.
  assert (0 < String.length pat)%nat as Hpos.
  { destruct pat; [congruence | simpl; lia]. }
  assert (q + String.length pat <= String.length a)%nat as Hfit.
  { pose proof (f_equal String.length Hq) as L. rewrite length_substring in L. lia. }
  assert (String.length a <= i)%nat as Hlen.
  { pose proof (f_equal String.length Hab) as L.
    unfold take in L. rewrite length_substring, length_append in L. lia. }
  apply (index_correct2 _ _ _ _ Hi q); [lia | lia |].
  rewrite <- (take_drop s i), Hab, append_assoc.
  now rewrite substring_append_l.
Qed.

Lemma contains_middle (a s b : string) : contains s (a +:+ s +:+ b) = true.
Proof.
  unfold contains.
  destruct (String.index 0 s (a +:+ s +:+ b)) as [i|] eqn:E; [reflexivity|].
  destruct s as [|c s].
  - destruct (a +:+ EmptyString +:+ b); discriminate.
  - exfalso. apply (index_correct3 _ (String.length a) _ _ E); [discriminate | lia |].
    rewrite substring_drop, drop_append. apply take_append.
Qed.

End StrMore.

(** ** More about the session *)

Module SessionMore.

Import Str StrFacts StrMore Session SessionFacts SessionLifecycle.

(** X1: a second [start] does nothing: the session keeps the shell the first
    one spawned, and no other shell is attached. *)
Theorem start_twice (self : BashSession) (first second : Process) :
  start (start self first) second = start self first /\
  _started (start self first) = true.
Proof. unfold start. destruct (_started self) eqn:E; cbn; rewrite ?E; auto. Qed.

(** X2: [run] touches the shell only on a session that is started, alive and
    not timed out: on any other session it returns the session unchanged
    (same buffers, same I/O log) and writes no file. *)
Theorem run_leaves_unready_session (self : BashSession) (cmd : string) (env : run_env) :
  (forall p, ~ ready self p) ->
  fst (run self cmd env) = (self, []).
Proof.
  intros Hn. unfold run.
  destruct (_started self) eqn:Hs; [|reflexivity]. cbn [negb].
  destruct (_process self) as [p|] eqn:Hp; [|reflexivity].
  destruct (returncode p) eqn:Hr; [reflexivity|].
  destruct (_timed_out self) eqn:Ht; [reflexivity|].
  exfalso. apply (Hn p). repeat split; assumption.
Qed.

(** A shell that has exited with code 0. *)
Definition exited_shell : BashSession := shell_exits 0 shell.

Lemma run_leaves_exited_shell :
  fst (run exited_shell "echo hi" echo_hi) = (exited_shell, []).
Proof.
  apply (run_leaves_unready_session exited_shell "echo hi" echo_hi).
  intros p (_ & _ & Hp & Hr). injection Hp as <-. discriminate.
Defined.

(** When the loop breaks, [output] is what precedes the sentinel in some text
    in which [index] found it. *)
Lemma poll_broke_inv (chunks : list (string * string)) :
  forall locals q q' out' err',
    poll chunks locals q = (q', Broke out' err') ->
    exists out i, String.index 0 _sentinel out = Some i /\ out' = take i out.
Proof.
  induction chunks as [|chunk rest IH]; intros locals q q' out' err'; cbn [poll].
  - discriminate.
  - cbv zeta.
    destruct (decode (stdout_buffer (feed chunk q))) as [output|]; [|discriminate].
    destruct (decode _) as [error|]; [|discriminate].
    destruct (index_of _sentinel output) as [n|] eqn:Hn.
    + intros [= _ <- _].
      destruct (index_of_cut _sentinel output n "<"%char eq_refl eq_refl Hn)
        as (i & Hi & Hcut).
      exists output, i. now split.
    + apply IH.
Qed.

(** What a [run] that returns a [CLIResult] returned. *)
Lemma run_success_inv (self : BashSession) (cmd : string) (env : run_env) (o e : string) :
  snd (run self cmd env) = Returned (CLIResult o e) ->
  exists p out i err,
    ready self p /\
    String.index 0 _sentinel out = Some i /\
    o = chomp (take i out) /\ e = chomp err.
Proof.
  unfold run.
  destruct (_started self) eqn:Hs; cbn [negb]; [|cbn; discriminate].
  destruct (_process self) as [p|] eqn:Hp; [|cbn; discriminate].
  destruct (returncode p) eqn:Hr; [cbn; discriminate|].
  destruct (_timed_out self) eqn:Ht; [cbn; discriminate|].
  destruct (poll (polls env) None _) as [p' [o' x|[[o' x]|]|]] eqn:Hpl.
  - cbn [snd]. intros [= <- <-].
    destruct (poll_broke_inv _ _ _ _ _ _ Hpl) as (out & i & Hi & ->).
    exists p, out, i, x. repeat split; assumption.
  - destruct (on_timeout env o' x) as [fs r] eqn:E. cbn [snd].
    pose proof (on_timeout_raises_preview env o' x) as R. rewrite E in R.
    cbn [snd] in R. rewrite R. discriminate.
  - cbn. discriminate.
  - cbn. discriminate.
Qed.

Lemma chomp_prefix (s : string) : exists t, s = chomp s +:+ t.
Proof.
  destruct (chomp_spec s) as [H|[H _]].
  - exists nl. exact H.
  - exists EmptyString. now rewrite append_nil_r.
Qed.

(** X3: the output a successful [run] returns never contains the sentinel. *)
Theorem run_output_has_no_sentinel
    (self : BashSession) (cmd : string) (env : run_env) (o e : string) :
  snd (run self cmd env) = Returned (CLIResult o e) ->
  contains _sentinel o = false.
Proof.
  intros H. apply run_success_inv in H as (p & out & i & err & _ & Hi & -> & _).
  destruct (chomp_prefix (take i out)) as [t Ht].
  apply (prefix_before_index _sentinel out _ t i); [discriminate | exact Hi | exact Ht].
Qed.

(** A command that prints the sentinel itself: the output stops before it. *)
Definition echo_sentinel : run_env :=
  {| polls := [("a<<exit>>b" +:+ nl +:+ "<<exit>>" +:+ nl, EmptyString)]; late := quiet;
     tmp_stdout := None; tmp_stderr := None |}.

Lemma output_stops_at_printed_sentinel :
  snd (run shell "echo 'a<<exit>>b'" echo_sentinel) = Returned (CLIResult "a" EmptyString) /\
  contains _sentinel "a" = false.
Proof.
  split; [reflexivity|].
  apply (run_output_has_no_sentinel shell "echo 'a<<exit>>b'" echo_sentinel "a" EmptyString).
  reflexivity.
Defined.

(** The loop keeps the process it polls: same shell, same exit code, and a
    log that only grows. *)
Lemma poll_same_shell (chunks : list (string * string)) :
  forall locals p,
    pid (fst (poll chunks locals p)) = pid p /\
    returncode (fst (poll chunks locals p)) = returncode p /\
    exists events, io (fst (poll chunks locals p)) = (io p ++ events)%list.
Proof.
  induction chunks as [|chunk rest IH]; intros locals p; cbn [poll].
  - cbn. repeat split. exists []. now rewrite app_nil_r.
  - cbv zeta.
    destruct (decode (stdout_buffer (feed chunk p))) as [output|];
      [|cbn; repeat split; eauto].
    destruct (decode _) as [error|]; [|cbn; repeat split; eauto].
    destruct (index_of _sentinel output).
    + cbn. repeat split. eauto.
    + destruct (IH (Some (output, error))
                  (log [ReadStdout; ReadStderr] (feed chunk p))) as (H1 & H2 & ev & H3).
      rewrite H1, H2, H3. cbn [log feed pid returncode io].
      repeat split. rewrite <- app_assoc. eauto.
Qed.

(** A started session with a shell. *)
Definition attached (self : BashSession) (p : Process) : Prop :=
  _started self = true /\ _process self = Some p.

(** The same shell as [p], with a log that extends the one of [p]. *)
Definition continues (p p' : Process) : Prop :=
  pid p' = pid p /\ exists events, io p' = (io p ++ events)%list.

Lemma continues_refl (p : Process) : continues p p.
Proof. split; [reflexivity|]. exists []. now rewrite app_nil_r. Qed.

Lemma continues_trans (p q r : Process) : continues p q -> continues q r -> continues p r.
Proof.
  intros (H1 & e1 & H2) (H3 & e2 & H4). split; [congruence|].
  exists (e1 ++ e2)%list. now rewrite H4, H2, app_assoc.
Qed.

Lemma log_continues (ev : list io_event) (p : Process) : continues p (log ev p).
Proof. split; [reflexivity|]. now exists ev. Qed.

Lemma feed_continues (c : string * string) (p : Process) : continues p (feed c p).
Proof. split; [reflexivity|]. exists []. cbn. now rewrite app_nil_r. Qed.

Lemma exits_continues (c : Z) (p : Process) : continues p (exits c p).
Proof. split; [reflexivity|]. exists []. cbn. now rewrite app_nil_r. Qed.

Lemma run_continues (self : BashSession) (cmd : string) (env : run_env) (p : Process) :
  attached self p ->
  exists p', attached (fst (fst (run self cmd env))) p' /\ continues p p'.
Proof.
  intros (Hs & Hp). unfold run. rewrite Hs, Hp. cbn [negb].
  destruct (returncode p).
  { exists p. cbn [fst]. split; [now split | apply continues_refl]. }
  destruct (_timed_out self).
  { exists p. cbn [fst]. split; [now split | apply continues_refl]. }
  pose proof (poll_same_shell (polls env) None
                (log [StdinWrite (framed cmd); StdinDrain] p)) as (H1 & _ & ev & H3).
  assert (continues p (fst (poll (polls env) None
                              (log [StdinWrite (framed cmd); StdinDrain] p)))) as Hc.
  { split; [exact H1|]. rewrite H3. cbn [log io]. rewrite <- app_assoc. eauto. }
  destruct (poll (polls env) None _) as [p' [o x|[[o x]|]|]]; cbn [fst] in Hc.
  - exists (clear_buffers p'). cbn [fst]. split; [now split|].
    eapply continues_trans; [exact Hc|].
    split; [reflexivity|]. now exists [ClearStdout; ClearStderr].
  - destruct (on_timeout env o x). exists (feed (late env) p'). cbn [fst].
    split; [now split|]. eapply continues_trans; [exact Hc | apply feed_continues].
  - exists (feed (late env) p'). cbn [fst].
    split; [now split|]. eapply continues_trans; [exact Hc | apply feed_continues].
  - exists p'. cbn [fst]. split; [now split | exact Hc].
Qed.

Lemma step_continues (self self' : BashSession) (p : Process) :
  step self self' -> attached self p ->
  exists p', attached self' p' /\ continues p p'.
Proof.
  intros Hstep Ha. pose proof Ha as (Hs & Hp).
  destruct Hstep as [self sp|self|self cmd env|self q c Hq|self q c Hq].
  - unfold start. rewrite Hs. eauto using continues_refl.
  - unfold stop. rewrite Hs, Hp. cbn [negb].
    destruct (returncode p); cbn [fst]; [eauto using continues_refl|].
    exists (log [Terminate] p). split; [now split | apply log_continues].
  - now apply run_continues.
  - rewrite Hp in Hq. injection Hq as <-.
    exists (feed c p). split; [now split | apply feed_continues].
  - rewrite Hp in Hq. injection Hq as <-.
    exists (exits c p). split; [now split | apply exits_continues].
Qed.

(** X4: once started, a session stays started on the shell it has: whatever
    its methods and its shell do, the process keeps its identity (no second
    shell is ever spawned for it) and the log of the I/O done on it is only
    ever extended. *)
Theorem session_keeps_its_shell (self later : BashSession) (p : Process) :
  rtc step self later ->
  _started self = true ->
  _process self = Some p ->
  exists p' events,
    _started later = true /\ _process later = Some p' /\
    pid p' = pid p /\ io p' = (io p ++ events)%list.
Proof.
  intros Hsteps Hs Hp.
  assert (exists p', attached later p' /\ continues p p') as (p' & (H1 & H2) & H3 & ev & H4).
  { revert p Hs Hp. induction Hsteps as [x|x y z Hxy _ IH]; intros p Hs Hp.
    - exists p. split; [now split | apply continues_refl].
    - destruct (step_continues _ _ p Hxy (conj Hs Hp)) as (q & (Hqs & Hqp) & Hq).
      destruct (IH q Hqs Hqp) as (r & Hr & Hqr).
      exists r. split; [exact Hr | eapply continues_trans; eassumption]. }
  exists p', ev. auto.
Qed.

Lemma stuck_shell_is_the_first_shell :
  exists p' events,
    _started (fst (stop (fst (fst (run shell "sleep 100" sleep_100))))) = true /\
    _process (fst (stop (fst (fst (run shell "sleep 100" sleep_100))))) = Some p' /\
    pid p' = 0%nat /\ io p' = events.
Proof.
  apply (session_keeps_its_shell shell
           (fst (stop (fst (fst (run shell "sleep 100" sleep_100))))) (spawn 0)).
  - eapply rtc_l; [apply step_run | apply rtc_once, step_stop].
  - reflexivity.
  - reflexivity.
Defined.

Lemma step_keeps_attachment (self self' : BashSession) :
  step self self' ->
  (_started self = true <-> exists p, _process self = Some p) ->
  (_started self' = true <-> exists p, _process self' = Some p).
Proof.
  intros Hstep Hwf.
  destruct (_started self) eqn:Hs.
  - destruct (proj1 Hwf eq_refl) as [p Hp].
    destruct (step_continues _ _ p Hstep (conj Hs Hp)) as (p' & (H1 & H2) & _).
    rewrite H1, H2. split; eauto.
  - assert (_process self = None) as Hp.
    { destruct (_process self) as [p|] eqn:E; [|reflexivity].
      pose proof (proj2 Hwf (ex_intro _ p eq_refl)). discriminate. }
    destruct Hstep as [self sp|self|self cmd env|self q c Hq|self q c Hq];
      try congruence.
    + unfold start. rewrite Hs. cbn. split; eauto.
    + unfold stop. rewrite Hs. cbn. rewrite Hs, Hp. split; [discriminate | intros [? [=]]].
    + unfold run. rewrite Hs. cbn. rewrite Hs, Hp. split; [discriminate | intros [? [=]]].
Qed.

(** X5: over the whole life of a session created by [__init__], it is
    started exactly when it has a process; so neither [run] nor [stop] ever
    fails on a missing [_process] attribute. *)
Theorem session_started_iff_has_process (self : BashSession) :
  rtc step Session.init self ->
  (_started self = true <-> exists p, _process self = Some p) /\
  forall cmd env name,
    snd (run self cmd env) <> Raised (AttributeError name) /\
    snd (stop self) <> Raised (AttributeError name).
Proof.
  intros Hsteps.
  assert (_started self = true <-> exists p, _process self = Some p) as Hwf.
  { pattern self. eapply rtc_ind_r; [| |exact Hsteps].
    - cbn. split; [discriminate | intros [? [=]]].
    - intros y z _ Hyz IH. eapply step_keeps_attachment; eassumption. }
  split; [exact Hwf|]. intros cmd env name.
  destruct (_started self) eqn:Hs.
  - destruct (proj1 Hwf eq_refl) as [p Hp]. split.
    + unfold run. rewrite Hs, Hp. cbn [negb].
      destruct (returncode p); [cbn; discriminate|].
      destruct (_timed_out self); [cbn; discriminate|].
      destruct (poll (polls env) None _) as [p' [o x|[[o x]|]|]]; try (cbn; discriminate).
      destruct (on_timeout env o x) as [fs r] eqn:E. cbn [snd].
      pose proof (on_timeout_raises_preview env o x) as R. rewrite E in R.
      cbn [snd] in R. rewrite R. discriminate.
    + unfold stop. rewrite Hs, Hp. cbn [negb]. destruct (returncode p); cbn; discriminate.
  - unfold run, stop. rewrite Hs. cbn. split; discriminate.
Qed.

Lemma stopped_shell_has_its_process :
  (_started (fst (stop shell)) = true <-> exists p, _process (fst (stop shell)) = Some p) /\
  forall cmd env name,
    snd (run (fst (stop shell)) cmd env) <> Raised (AttributeError name) /\
    snd (stop (fst (stop shell))) <> Raised (AttributeError name).
Proof.
  apply (session_started_iff_has_process (fst (stop shell))).
  eapply rtc_l; [apply (step_start Session.init (spawn 0)) | apply rtc_once, step_stop].
Defined.






(** X7: a [run] that finds the sentinel at poll [k], both buffers decoding
    at every poll up to [k], writes the command, framed by the [echo] of the
    sentinel, exactly once, reads both buffers once per poll up to poll [k],
    clears both, and does nothing else to the shell; it writes no file, and
    what the shell prints after poll [k] is not consumed. *)
Theorem run_success_io
    (self : BashSession) (cmd : string) (env : run_env) (p : Process) (k : nat) :
  ready self p ->
  (k < length (polls env))%nat ->
  (forall j, (j <= k)%nat -> decodes p (polls env) j) ->
  (forall j, (j < k)%nat -> contains _sentinel (seen_stdout p (polls env) j) = false) ->
  contains _sentinel (seen_stdout p (polls env) k) = true ->
  exists p',
    fst (run self cmd env) = (with_process self p', []) /\
    pid p' = pid p /\ returncode p' = None /\
    stdout_buffer p' = EmptyString /\ stderr_buffer p' = EmptyString /\
    io p' =
      (io p ++ [StdinWrite (cmd +:+ "; echo '<<exit>>'" +:+ nl); StdinDrain]
            ++ List.concat (repeat [ReadStdout; ReadStderr] (S k))
            ++ [ClearStdout; ClearStderr])%list.
Proof.
  intros Hready Hk Hdec Hearlier Hhit.
  rewrite (run_ready _ _ _ _ Hready).
  rewrite (poll_breaks (polls env) None (asked cmd p) k Hk Hdec Hearlier Hhit).
  eexists. split; [reflexivity|].
  destruct Hready as (_ & _ & _ & Hr).
  repeat split; try assumption.
  cbn [clear_buffers polled asked log io]. now rewrite <- !app_assoc.
Qed.

Lemma echo_hi_io :
  exists p',
    fst (run shell "echo hi" echo_hi) = (with_process shell p', []) /\
    pid p' = 0%nat /\ returncode p' = None /\
    stdout_buffer p' = EmptyString /\ stderr_buffer p' = EmptyString /\
    io p' =
      [StdinWrite ("echo hi; echo '<<exit>>'" +:+ nl); StdinDrain;
       ReadStdout; ReadStderr; ReadStdout; ReadStderr; ClearStdout; ClearStderr].
Proof.
  apply (run_success_io shell "echo hi" echo_hi (spawn 0) 1).
  - repeat split.
  - simpl. lia.
  - intros j Hj.
    assert (j = 0 \/ j = 1)%nat as [-> | ->] by lia; split; reflexivity.
  - intros j Hj. assert (j = 0)%nat as -> by lia. reflexivity.
  - reflexivity.
Defined.

(** X23: output that is not UTF-8 makes [run] raise [UnicodeDecodeError] at
    the first poll at which a buffer does not decode, when no earlier poll
    saw the sentinel, even if the sentinel has arrived by then.  The session
    is touched no further: it is not marked as timed out, the buffers keep
    everything the shell has printed, nothing is cleared and no file is
    written; stderr has been read at that poll only if stdout decoded. *)
Theorem run_raises_on_undecodable_output
    (self : BashSession) (cmd : string) (env : run_env) (p : Process) (k : nat) :
  ready self p ->
  (k < length (polls env))%nat ->
  (forall j, (j < k)%nat -> decodes p (polls env) j) ->
  (forall j, (j < k)%nat -> contains _sentinel (seen_stdout p (polls env) j) = false) ->
  ~ decodes p (polls env) k ->
  exists p',
    run self cmd env = (with_process self p', [], Raised UnicodeDecodeError) /\
    _timed_out (with_process self p') = false /\
    pid p' = pid p /\ returncode p' = None /\
    stdout_buffer p' = seen_stdout p (polls env) k /\
    stderr_buffer p' = seen_stderr p (polls env) k /\
    io p' =
      (io p ++ [StdinWrite (cmd +:+ "; echo '<<exit>>'" +:+ nl); StdinDrain]
            ++ List.concat (repeat [ReadStdout; ReadStderr] k)
            ++ (if utf8_valid (seen_stdout p (polls env) k)
                then [ReadStdout; ReadStderr] else [ReadStdout]))%list.
Proof.
  intros Hready Hk Hdec Hearlier Hbad.
  rewrite (run_ready _ _ _ _ Hready).
  rewrite (poll_chokes (polls env) None (asked cmd p) k Hk Hdec Hearlier Hbad).
  eexists. split; [reflexivity|].
  destruct Hready as (_ & Ht & _ & Hr).
  repeat split; try assumption.
  cbn [choked asked log io]. now rewrite <- !app_assoc.
Qed.

(** [printf '\377'] on a fresh shell; the bytes stay in the buffer, so the
    next command on the session, whatever it prints, raises as well. *)
Lemma printf_ff_raises :
  (exists p',
     run shell "printf '\377'" printf_ff =
       (with_process shell p', [], Raised UnicodeDecodeError) /\
     _timed_out (with_process shell p') = false /\
     pid p' = 0%nat /\ returncode p' = None /\
     stdout_buffer p' = byte_ff +:+ "<<exit>>" +:+ nl /\
     stderr_buffer p' = EmptyString /\
     io p' = [StdinWrite ("printf '\377'; echo '<<exit>>'" +:+ nl); StdinDrain; ReadStdout]) /\
  snd (run (fst (fst (run shell "printf '\377'" printf_ff))) "echo hi" echo_hi) =
    Raised UnicodeDecodeError.
Proof.
  split; [|reflexivity].
  apply (run_raises_on_undecodable_output shell "printf '\377'" printf_ff (spawn 0) 0).
  - repeat split.
  - simpl. lia.
  - intros j Hj. lia.
  - intros j Hj. lia.
  - intros [H _]. vm_compute in H. discriminate.
Defined.

End SessionMore.

(** ** More about the manager *)

Module ManagerMore.

Import Str StrFacts Session Manager SessionFacts SessionLifecycle SessionMore ManagerFacts.


(** *** The sessions of a manager over its lifetime *)

(** What can happen to a manager: [execute] is called, the spawn it may need
    succeeding or raising, or the shell of the session it holds prints
    something or exits. *)
Inductive mstep : BashSessionManager -> BashSessionManager -> Prop :=
  | mstep_execute spawn_raises self cmd restart env :
      mstep self (fst (fst (execute_spawning spawn_raises self cmd restart env)))
  | mstep_feed self s p chunk :
      _session self = Some s -> _process s = Some p ->
      mstep self (with_session self (with_process s (feed chunk p)))
  | mstep_exits self s p code :
      _session self = Some s -> _process s = Some p ->
      mstep self (with_session self (with_process s (exits code p))).

(** Every session the manager has created, oldest first. *)
Definition sessions (self : BashSessionManager) : list BashSession :=
  (dropped self ++ match _session self with Some s => [s] | None => [] end)%list.

Definition pid_of (s : BashSession) : option nat :=
  match _process s with
  | Some p => Some (pid p)
  | None => None
  end.

(** The shells of a list of sessions, a session that never got one
    contributing none. *)
Definition shells (l : list BashSession) : list nat :=
  flat_map (fun s => match pid_of s with Some n => [n] | None => [] end) l.

(** [stop] was called on the session while it had a shell: the shell had
    exited, or it has been sent the termination signal. *)
Definition stopped (s : BashSession) : Prop :=
  exists p, _process s = Some p /\ (returncode p <> None \/ In Terminate (io p)).

(** The session a manager holds is started on a shell, or it is the session
    [_BashSession()] built, whose [start] raised. *)
Definition held (s : BashSession) : Prop :=
  (_started s = true /\ exists p, _process s = Some p) \/ s = Session.init.

Definition kept (self : BashSessionManager) : Prop :=
  shells (sessions self) = seq 0 (spawned self) /\
  Forall stopped (dropped self) /\
  forall s, _session self = Some s -> held s.

Lemma shells_app (l l' : list BashSession) : shells (l ++ l') = (shells l ++ shells l')%list.
Proof. unfold shells. apply flat_map_app. Qed.

Lemma stop_cases (s : BashSession) :
  (exists e, snd (stop s) = Raised e /\ fst (stop s) = s) \/
  (snd (stop s) = Returned tt /\ stopped (fst (stop s)) /\
   pid_of (fst (stop s)) = pid_of s /\ _started (fst (stop s)) = true).
Proof.
  unfold stop. destruct (_started s) eqn:Hs; cbn [negb]; [|left; eauto].
  destruct (_process s) as [p|] eqn:Hp; [|left; eauto].
  destruct (returncode p) eqn:Hr; right; cbn [fst snd].
  - split; [reflexivity|]. split; [|split; [reflexivity | exact Hs]].
    exists p. split; [exact Hp|]. left. congruence.
  - split; [reflexivity|]. split; [|split; [|exact Hs]].
    + eexists. split; [reflexivity|]. right. cbn. apply in_or_app. right. now left.
    + unfold pid_of. now rewrite Hp.
Qed.

Lemma stopped_held (s : BashSession) : stopped s -> _started s = true -> held s.
Proof. intros (p & Hp & _) Hs. left. eauto. Qed.

(** [run] keeps the session a manager holds on its shell. *)
Lemma run_keeps_held (s : BashSession) (cmd : string) (env : run_env) :
  held s ->
  pid_of (fst (fst (run s cmd env))) = pid_of s /\ held (fst (fst (run s cmd env))).
Proof.
  intros [(Hs & p & Hp)| ->].
  - destruct (run_continues s cmd env p (conj Hs Hp)) as (p' & (H1 & H2) & H3 & _).
    unfold pid_of. rewrite H2, Hp, H3. split; [reflexivity|]. left. eauto.
  - split; [reflexivity | now right].
Qed.

Lemma kept_init : kept Manager.init.
Proof. repeat split; [constructor | discriminate]. Qed.

Lemma kept_replace (self : BashSessionManager) (s s' : BashSession) :
  kept self -> _session self = Some s ->
  pid_of s' = pid_of s -> held s' ->
  kept (with_session self s').
Proof.
  intros (Hp & Hd & Hs) Hsess Hpid Hst. unfold kept, sessions in *.
  cbn [with_session _session spawned dropped]. rewrite Hsess in Hp.
  rewrite shells_app in *. cbn [shells flat_map] in *. rewrite Hpid.
  repeat split; [exact Hp | exact Hd | now intros ? [= <-]].
Qed.

Lemma kept_start_new (self : BashSessionManager) :
  kept self ->
  (forall s, _session self = Some s -> stopped s) ->
  kept (start_new self).
Proof.
  intros (Hp & Hd & Hs) Hstopped. unfold kept, sessions in *.
  cbn [start_new _session spawned dropped].
  rewrite seq_S, shells_app, Hp. cbn [Nat.add].
  repeat split.
  - apply Forall_app. split; [exact Hd|].
    destruct (_session self) as [s|]; [|constructor].
    constructor; [now apply Hstopped | constructor].
  - intros ? [= <-]. left. split; [reflexivity | eexists; reflexivity].
Qed.

Lemma kept_start_new_raising (self : BashSessionManager) :
  kept self ->
  (forall s, _session self = Some s -> stopped s) ->
  kept (start_new_raising self).
Proof.
  intros (Hp & Hd & Hs) Hstopped. unfold kept, sessions in *.
  cbn [start_new_raising _session spawned dropped].
  rewrite shells_app, Hp. cbn. rewrite app_nil_r.
  repeat split.
  - apply Forall_app. split; [exact Hd|].
    destruct (_session self) as [s|]; [|constructor].
    constructor; [now apply Hstopped | constructor].
  - intros ? [= <-]. now right.
Qed.

Lemma execute_keeps (spawn_raises : option exn) (self : BashSessionManager)
    (cmd : option string) (restart : bool) (env : run_env) :
  kept self -> kept (fst (fst (execute_spawning spawn_raises self cmd restart env))).
Proof.
  intros Hk. pose proof Hk as (_ & _ & Hst). unfold execute_spawning. destruct restart.
  - destruct (_session self) as [s|] eqn:Hs.
    + destruct (stop_cases s) as [(e & Hr & Hsame)|(Hr & Hstop & Hpid & Hstarted)];
        destruct (stop s) as [s' r]; cbn [fst snd] in *; subst.
      * cbn [fst]. apply (kept_replace self s s Hk Hs eq_refl (Hst s eq_refl)).
      * assert (kept (with_session self s')) as Hk'.
        { apply (kept_replace self s s' Hk Hs Hpid). now apply stopped_held. }
        destruct spawn_raises as [e|]; cbn [fst].
        -- apply kept_start_new_raising; [exact Hk' | cbn; now intros ? [= <-]].
        -- apply kept_start_new; [exact Hk' | cbn; now intros ? [= <-]].
    + destruct spawn_raises as [e|]; cbn [fst].
      * apply kept_start_new_raising; [exact Hk | rewrite Hs; intros ? [=]].
      * apply kept_start_new; [exact Hk | rewrite Hs; intros ? [=]].
  - destruct (_session self) as [s|] eqn:Hs.
    + rewrite Hs. destruct cmd as [c|]; [|exact Hk].
      destruct (run_keeps_held s c env (Hst s eq_refl)) as (Hpid & Hheld).
      destruct (run s c env) as [[s' files] r]. cbn [fst] in *.
      now apply (kept_replace self s s').
    + destruct spawn_raises as [e|].
      * cbn [fst]. apply kept_start_new_raising; [exact Hk | rewrite Hs; intros ? [=]].
      * assert (kept (start_new self)) as Hk'.
        { apply kept_start_new; [exact Hk | rewrite Hs; intros ? [=]]. }
        cbn [start_new _session].
        destruct cmd as [c|]; [|exact Hk'].
        assert (held (fresh_session (spawned self))) as Hfresh.
        { left. split; [reflexivity | eexists; reflexivity]. }
        destruct (run_keeps_held (fresh_session (spawned self)) c env Hfresh)
          as (Hpid & Hheld).
        destruct (run (fresh_session (spawned self)) c env) as [[s' files] r].
        cbn [fst] in *.
        now apply (kept_replace (start_new self) (fresh_session (spawned self)) s').
Qed.

Lemma mstep_keeps (self self' : BashSessionManager) :
  mstep self self' -> kept self -> kept self'.
Proof.
  intros [sp m cmd restart env|m s p chunk Hs Hp|m s p code Hs Hp] Hk.
  - now apply execute_keeps.
  - pose proof Hk as (_ & _ & Hst).
    apply (kept_replace m s _ Hk Hs).
    + unfold pid_of. now rewrite Hp.
    + destruct (Hst s Hs) as [(Hstarted & _)| ->]; [|discriminate].
      left. split; [exact Hstarted | eexists; reflexivity].
  - pose proof Hk as (_ & _ & Hst).
    apply (kept_replace m s _ Hk Hs).
    + unfold pid_of. now rewrite Hp.
    + destruct (Hst s Hs) as [(Hstarted & _)| ->]; [|discriminate].
      left. split; [exact Hstarted | eexists; reflexivity].
Qed.

(** X9: over the whole life of a manager, whatever [execute] calls are made
    and whether or not each spawn succeeds, the sessions it has created, the
    dropped ones and then the one it holds, run on the shells 0, 1, 2, ... in
    that order, as many as were spawned; every session it has dropped was
    stopped first (its shell had exited or was sent the termination signal);
    and the session it holds is started on a shell, unless its spawn raised:
    then it is a session that was never started and has no shell. *)
Theorem manager_sessions (self : BashSessionManager) :
  rtc mstep Manager.init self ->
  shells (sessions self) = seq 0 (spawned self) /\
  Forall stopped (dropped self) /\
  forall s, _session self = Some s ->
            (_started s = true /\ exists p, _process s = Some p) \/ s = Session.init.
Proof.
  intros Hsteps. change (kept self).
  pattern self. eapply rtc_ind_r; [| |exact Hsteps].
  - apply kept_init.
  - intros y z _ Hyz IH. eapply mstep_keeps; eassumption.
Qed.

(** The manager after [sleep 100] has timed out, a restart was asked, and
    the spawn of the new shell raised. *)
Definition restart_failed : BashSessionManager :=
  fst (fst (execute_spawning (Some OSError) stuck None true echo_hi)).

Lemma restart_failed_sessions :
  shells (sessions restart_failed) = [0%nat] /\
  Forall stopped (dropped restart_failed) /\
  forall s, _session restart_failed = Some s ->
            (_started s = true /\ exists p, _process s = Some p) \/ s = Session.init.
Proof.
  apply (manager_sessions restart_failed).
  eapply rtc_l;
    [apply (mstep_execute None Manager.init (Some "sleep 100") false sleep_100)|].
  apply rtc_once. apply (mstep_execute (Some OSError) stuck None true echo_hi).
Defined.

(** X24: a spawn that raises wedges the manager.  [execute] has already
    assigned the new, unstarted session when [start] raises, so the
    exception of the spawn leaves [execute] and from then on every call,
    with a command or with [restart=True], raises "Session has not started."
    and changes nothing: no shell is ever spawned again. *)
Theorem failed_spawn_wedges
    (self : BashSessionManager) (e : exn) (cmd0 : option string) (restart0 : bool)
    (env0 : run_env) :
  restart0 = true \/ _session self = None ->
  prior_state self ->
  let wedged := fst (fst (execute_spawning (Some e) self cmd0 restart0 env0)) in
  snd (execute_spawning (Some e) self cmd0 restart0 env0) = Raised e /\
  _session wedged = Some Session.init /\
  spawned wedged = spawned self /\
  forall spawn_raises cmd restart env,
    execute_spawning spawn_raises wedged cmd restart env =
      (wedged, [],
       Raised (ToolError
                 (match restart, cmd with
                  | false, None => "no command provided."
                  | _, _ => "Session has not started."
                  end))).
Proof.
  intros Hreach Hprior wedged.
  assert (snd (execute_spawning (Some e) self cmd0 restart0 env0) = Raised e /\
          _session wedged = Some Session.init /\ spawned wedged = spawned self)
    as (Hraised & Hsess & Hspawned).
  { subst wedged. unfold execute_spawning. destruct restart0.
    - destruct (_session self) as [s|] eqn:Hs; [|now cbn].
      destruct (prior_state_started _ _ Hprior Hs) as (Hst & p & Hp).
      rewrite (stop_started _ _ Hst Hp). now cbn.
    - destruct Hreach as [|Hnone]; [discriminate|]. rewrite Hnone. now cbn. }
  split; [exact Hraised|]. split; [exact Hsess|]. split; [exact Hspawned|].
  intros spawn_raises cmd restart env. unfold execute_spawning.
  rewrite Hsess. destruct wedged as [held_session n l]. cbn in Hsess. subst held_session.
  destruct restart; [reflexivity|]. cbn [_session]. destruct cmd; reflexivity.
Qed.

Lemma failed_restart_wedges_stuck_manager :
  snd (execute_spawning (Some OSError) stuck None true echo_hi) = Raised OSError /\
  _session restart_failed = Some Session.init /\
  spawned restart_failed = 1%nat /\
  forall spawn_raises cmd restart env,
    execute_spawning spawn_raises restart_failed cmd restart env =
      (restart_failed, [],
       Raised (ToolError
                 (match restart, cmd with
                  | false, None => "no command provided."
                  | _, _ => "Session has not started."
                  end))).
Proof.
  apply (failed_spawn_wedges stuck OSError None true echo_hi).
  - now left.
  - eapply poisoned_session; reflexivity.
Defined.




(** X11: without a restart nothing recovers a manager whose session has
    timed out: [execute(command)] keeps the session, writes nothing to the
    shell and no file, and raises the timeout error (or, once the shell has
    exited, returns the "tool must be restarted" result). *)
Theorem execute_on_poisoned_session
    (self : BashSessionManager) (s : BashSession) (p : Process)
    (cmd : string) (env : run_env) :
  _session self = Some s ->
  poisoned s ->
  _process s = Some p ->
  execute self (Some cmd) false env =
    ({| _session := Some s; spawned := spawned self; dropped := dropped self |},
     [],
     match returncode p with
     | None => Raised (ToolError timed_out_prefix)
     | Some rc => Returned (must_be_restarted rc)
     end).
Proof.
  intros Hs Hpo Hp. rewrite execute_spawned. rewrite Hs.
  now rewrite (run_poisoned s cmd env p Hpo Hp).
Qed.

Lemma execute_on_stuck_manager :
  exists s,
    execute stuck (Some "echo hi") false echo_hi =
      ({| _session := Some s; spawned := 1; dropped := [] |}, [],
       Raised (ToolError timed_out_prefix)).
Proof.
  eexists.
  refine (execute_on_poisoned_session stuck _ _ "echo hi" echo_hi eq_refl _ eq_refl).
  repeat split. eexists. reflexivity.
Defined.

End ManagerMore.

(** ** More about the grading pipeline *)

Module GradingMore.

Import Str StrFacts StrMore Grading GradingFacts.

(** The commands of a whole [run_grading] and of a whole
    [validate_patches]. *)
Definition full_grading : list invocation :=
  [CopyRepo; GitApply TestPatch; LakeBuild; LakeTest].

Definition full_validation : list invocation :=
  [CopyRepo; LakeBuild; GitApply TestPatch; LakeTest; GitResetHard;
   GitApply GoldenPatch; GitApply TestPatch; LakeBuild; LakeTest].


(** Follows a workflow down every branch of its tests. *)
Ltac each_exit :=
  repeat match goal with
         | |- context [if ?b then _ else _] => destruct b
         | |- context [match ?x with Finished _ => _ | Expired => _ end] => destruct x
         end.

(** X13: both workflows run their commands strictly in order: whatever the
    commands answer, those run are an initial part of the full sequence,
    beginning with the copy; no command is skipped or reordered and no
    stage is tried again. *)
Theorem workflows_run_in_order (genv : grading_env) (venv : validate_env) :
  (exists rest, full_grading = (fst (run_grading genv) ++ rest)%list) /\
  (exists rest, full_validation = (fst (validate_patches venv) ++ rest)%list) /\
  (exists rest, fst (run_grading genv) = CopyRepo :: rest) /\
  (exists rest, fst (validate_patches venv) = CopyRepo :: rest).
Proof.
  split; [|split; [|split]].
  - unfold run_grading, run_grading_reading. each_exit; cbn; eauto.
  - unfold validate_patches, validate_patches_reading. each_exit; cbn; eauto.
  - unfold run_grading, run_grading_reading. each_exit; cbn; eauto.
  - unfold validate_patches, validate_patches_reading. each_exit; cbn; eauto.
Qed.












Lemma contains_inside (marker s a b : string) :
  contains marker s = true -> contains marker (a +:+ s +:+ b) = true.
Proof.
  intros H. unfold contains in H.
  destruct (String.index 0 marker s) as [i|] eqn:Hi; [|discriminate].
  destruct (index_split _ _ _ Hi) as [Hs _].
  remember (take i s) as pre. remember (drop (i + String.length marker) s) as post.
  clear Heqpre Heqpost Hi. subst s.
  rewrite !append_assoc, <- (append_assoc a pre).
  apply contains_middle.
Qed.

(** X17: the formatter escapes nothing: any text that occurs in the captured
    stdout or stderr occurs in the report as it is, markup included; so a
    [<failure] printed by the tests stands in the report of a stage that
    passed. *)
Theorem report_embeds_output_unescaped
    (marker test_name : string) (failure_message : option string) (stdout stderr : string) :
  (contains marker stdout = true ->
   contains marker (_format_junit_xml test_name failure_message stdout stderr) = true) /\
  (contains marker stderr = true ->
   contains marker (_format_junit_xml test_name failure_message stdout stderr) = true).
Proof.
  unfold _format_junit_xml. split; intros H.
  - repeat (rewrite <- (append_assoc _ _ (stdout +:+ _))).
    rewrite <- (append_assoc _ stdout). rewrite append_assoc.
    now apply contains_inside.
  - repeat (rewrite <- (append_assoc _ _ (stderr +:+ _))).
    rewrite <- (append_assoc _ stderr). rewrite append_assoc.
    now apply contains_inside.
Qed.

(** Tests that pass and print a [<failure] element of their own. *)
Definition forged : completed :=
  {| exit_code := 0; stdout := "<failure type='TestFailure'>no</failure>";
     stderr := EmptyString |}.

Lemma passing_report_with_printed_failure :
  fst (run_tests forged) = true /\
  contains "<failure" (junit (snd (run_tests forged))) = true.
Proof.
  split; [reflexivity|].
  apply (proj1 (report_embeds_output_unescaped "<failure" "Tests" None
                  "<failure type='TestFailure'>no</failure>" EmptyString)).
  reflexivity.
Defined.



End GradingMore.

(** ** More about the grade *)

Module GradeMore.

Import GradeSpec FloatFacts GradeFacts.

(** [np.clip(x, 0, 1)] is NaN or a number of [[0, 1]]. *)
Lemma clip_bounds (x : float) :
  is_nan (clip x 0 1) = true \/
  ((0 <=? clip x 0 1)%float = true /\ (clip x 0 1 <=? 1)%float = true).
Proof.
  unfold clip. destruct (is_nan x) eqn:Hx.
  - left. rewrite Hx. exact Hx.
  - destruct (0 <? x)%float eqn:H0.
    + rewrite Hx. destruct (x <? 1)%float eqn:H1.
      * right. split; now apply ltb_leb.
      * right. split; reflexivity.
    + right. split; reflexivity.
Qed.

(** What [score] returns is a clipped value. *)
Lemma score_returned_inv (v : cpython) (g : Grade) (x : float) :
  score v g = Returned x -> exists s, x = clip s 0 1.
Proof.
  unfold score, bind, py_assert.
  destruct (same_keys _ _); [|discriminate].
  destruct (isclose _ _); [|discriminate].
  destruct (py_min _) as [lo|]; [|discriminate].
  destruct (0 <=? lo)%float; [|discriminate].
  destruct (py_max _) as [hi|]; [|discriminate].
  destruct (hi <=? 1)%float; [|discriminate].
  destruct (products _ _ _) as [l|]; [|discriminate].
  intros [= <-]. eauto.
Qed.

(** X18: whatever the subscores and weights (negative weights and weights
    above 1 included), a score that [score] returns is never below 0 or
    above 1: it is a number of [[0, 1]], or it is NaN. *)
Theorem score_is_in_range (v : cpython) (g : Grade) (x : float) :
  score v g = Returned x ->
  is_nan x = true \/ ((0 <=? x)%float = true /\ (x <=? 1)%float = true).
Proof.
  intros H. apply score_returned_inv in H as [s ->]. apply clip_bounds.
Qed.

(** A weight of 2 offset by a weight of -1. *)
Definition lopsided : Grade :=
  {| subscores := [("a", 1%float); ("b", 0%float)];
     weights := [("a", 2%float); ("b", (-1)%float)];
     metadata := None |}.

Lemma lopsided_score_is_in_range :
  score from_3_12 lopsided = Returned 1%float /\
  (is_nan 1 = true \/ ((0 <=? 1)%float = true /\ (1 <=? 1)%float = true)).
Proof.
  assert (score from_3_12 lopsided = Returned 1%float) as H by (vm_compute; reflexivity).
  split; [exact H | exact (score_is_in_range from_3_12 lopsided 1%float H)].
Defined.

End GradeMore.

(** ** The problem registry and the grading tool ([server/spec.py],
       [server/main.py]) *)

Module Problems.

Import GradeSpec.

Inductive hint_kind : Type := legit | leaky.

(** [HintSpec]. *)
Record HintSpec : Type := {
  hint_type : hint_kind;
  text : string;
  why_legitmate : option string
}.

Inductive ReviewLevel : Type :=
  | no_review | creator_reviewed | hud_approved | customer_approved.

(** [ProblemSpec]. *)
Record ProblemSpec : Type := {
  id : string;
  description : string;
  base : string;
  test : string;
  golden : string;
  hints : list HintSpec;
  difficulty : string;
  task_type : string;
  review_level : ReviewLevel;
  config : option (gmap string string);
  startup_command : string;
  demo : bool;
  too_hard : bool
}.

(** The two exceptions [main.py] raises, with their messages. *)
Inductive error : Type :=
  | ValueError (message : string)
  | RuntimeError (message : string).

(** [_get_spec], over the registry it scans. *)
Fixpoint _get_spec (PROBLEM_REGISTRY : list ProblemSpec) (problem_id : string)
    : error + ProblemSpec :=
  match PROBLEM_REGISTRY with
  | [] => inl (ValueError ("No problem found for id: " +:+ problem_id))
  | spec :: rest =>
      if String.eqb (id spec) problem_id then inr spec
      else _get_spec rest problem_id
  end.

(** What [http_client.post("/grade", ...)] hands back: the status, the body
    as text, and the body as [response.json()] reads it when the status is
    200 ([GradeResponse]: [success] and the [result] dictionary). *)
Record response : Type := {
  status_code : nat;
  body_text : string;
  success : bool;
  result : gmap string string
}.

(** [grade_problem]; [transcript] is not read. *)
Definition grade_problem (PROBLEM_REGISTRY : list ProblemSpec) (problem_id : string)
    (answer : response) : error + Grade :=
  match _get_spec PROBLEM_REGISTRY problem_id with
  | inl e => inl e
  | inr spec =>
      if negb (status_code answer =? 200)%nat then
        inl (RuntimeError ("Failed to grade problem: " +:+ body_text answer))
      else
        inr {| subscores := [("Tests", if success answer then 1%float else 0%float)];
               weights := [("Tests", 1%float)];
               metadata := Some (result answer) |}
  end.

End Problems.

Module ProblemsFacts.

Import GradeSpec Problems.

(** X19: [_get_spec] returns the first problem of the registry with the
    given id, and raises [ValueError] naming the id exactly when no
    problem of the registry has it. *)
Theorem get_spec_finds_first (registry : list ProblemSpec) (problem_id : string) :
  (forall spec,
     _get_spec registry problem_id = inr spec ->
     id spec = problem_id /\
     exists before after,
       registry = (before ++ spec :: after)%list /\
       Forall (fun other => id other <> problem_id) before) /\
  (forall e,
     _get_spec registry problem_id = inl e ->
     e = ValueError ("No problem found for id: " +:+ problem_id) /\
     Forall (fun other => id other <> problem_id) registry) /\
  (Forall (fun other => id other <> problem_id) registry ->
   _get_spec registry problem_id =
     inl (ValueError ("No problem found for id: " +:+ problem_id))).
Proof.
  induction registry as [|first rest (IH1 & IH2 & IH3)]; cbn [_get_spec].
  - split; [discriminate|]. split; [|reflexivity].
    intros e [= <-]. split; [reflexivity | constructor].
  - destruct (String.eqb_spec (id first) problem_id) as [Heq|Hne].
    + split; [|split].
      * intros spec [= <-]. split; [exact Heq|]. exists [], rest. split; [reflexivity|constructor].
      * discriminate.
      * intros H. apply Forall_cons_iff in H as [H _]. contradiction.
    + split; [|split].
      * intros spec H. destruct (IH1 spec H) as (Hid & before & after & -> & Hb).
        split; [exact Hid|]. exists (first :: before), after.
        split; [reflexivity | now constructor].
      * intros e H. destruct (IH2 e H) as (-> & Hall). split; [reflexivity | now constructor].
      * intros H. apply Forall_cons_iff in H as [_ H]. now apply IH3.
Qed.

(** X20: a grade that [grade_problem] returns always passes the checks of
    [score], and its score is 1 when the grading endpoint reported success
    and 0 otherwise; it is returned only for a known problem and a reply
    with status 200, and carries the reply's result as metadata. *)
Theorem grade_problem_score
    (v : cpython) (registry : list ProblemSpec) (problem_id : string) (answer : response)
    (g : Grade) :
  grade_problem registry problem_id answer = inr g ->
  score v g = Returned (if success answer then 1%float else 0%float) /\
  metadata g = Some (result answer) /\
  status_code answer = 200%nat /\
  exists spec, _get_spec registry problem_id = inr spec.
Proof.
  unfold grade_problem.
  destruct (_get_spec registry problem_id) as [e|spec]; [discriminate|].
  destruct (Nat.eqb_spec (status_code answer) 200) as [Hs|Hs]; cbn [negb]; [|discriminate].
  intros [= <-]. split; [|split; [reflexivity | split; [exact Hs | eauto]]].
  destruct v, (success answer); vm_compute; reflexivity.
Qed.

Definition problem (name : string) (statement : string) : ProblemSpec :=
  {| id := name; description := statement; base := "base"; test := "test";
     golden := "golden"; hints := []; difficulty := "easy"; task_type := "coding";
     review_level := no_review; config := None; startup_command := "hud_eval";
     demo := false; too_hard := false |}.

(** A registry in which one id is used twice. *)
Definition registry_with_duplicate : list ProblemSpec :=
  [problem "sum" "first"; problem "sort" "second"; problem "sum" "third"].

Lemma duplicate_id_yields_first :
  _get_spec registry_with_duplicate "sum" = inr (problem "sum" "first") /\
  description (problem "sum" "first") = "first" /\
  _get_spec registry_with_duplicate "max" =
    inl (ValueError "No problem found for id: max").
Proof.
  split; [reflexivity|]. split; [reflexivity|].
  apply (proj2 (proj2 (get_spec_finds_first registry_with_duplicate "max"))).
  repeat constructor; discriminate.
Defined.

Definition graded_ok : response :=
  {| status_code := 200; body_text := EmptyString; success := true;
     result := {[ "junit" := "<testsuites/>" ]} |}.

Lemma graded_ok_scores_1 :
  exists g,
    grade_problem registry_with_duplicate "sort" graded_ok = inr g /\
    score from_3_12 g = Returned 1%float.
Proof.
  eexists. split; [reflexivity|].
  eapply (proj1 (grade_problem_score from_3_12 registry_with_duplicate "sort" graded_ok _
                   eq_refl)).
Defined.

End ProblemsFacts.

(** ** The endpoints ([environment/server.py]) *)

Module Endpoints.

Import Session Manager Grading.

(** What a handler answers: the body of a 200 reply, or the
    [HTTPException] it raises. *)
Inductive reply (A : Type) : Type :=
  | Reply (body : A)
  | HTTPException (status_code : nat) (detail : string).
Arguments Reply {A} body.
Arguments HTTPException {A} status_code detail.

Definition output_of : ToolResult -> option string := output.
Definition error_of : ToolResult -> option string := error.
Definition base64_image_of : ToolResult -> option string := base64_image.
Definition system_of : ToolResult -> option string := system.

Record BashRequest : Type := { command : option string; restart : bool }.

Record ToolResultResponse : Type := {
  output : option string;
  error : option string;
  base64_image : option string;
  system : option string
}.

Record GradeRequest : Type := { base : string; test : string; golden : string }.

Record GradeResponse : Type := { success : bool; result : report }.

Section Handlers.

(** [str(e)] for an exception [e], as Python prints it. *)
Variable str : exn -> string.

(** [bash_execute], on the manager the module holds; [spawn_raises] and
    [env] are what the operating system does during the call. *)
Definition bash_execute (bash_manager : BashSessionManager) (request : BashRequest)
    (spawn_raises : option exn) (env : run_env)
    : BashSessionManager * list (string * string) * reply ToolResultResponse :=
  let '(manager, files, r) :=
    execute_spawning spawn_raises bash_manager (command request) (restart request) env in
  (manager, files,
   match r with
   | Returned result =>
       Reply {| output := output_of result; error := error_of result;
                base64_image := base64_image_of result; system := system_of result |}
   | Raised (ToolError message) => HTTPException 400 message
   | Raised e => HTTPException 500 (str e)
   end).



(** The [/validate] handler; [files] is what reading the patch files
    does. *)
Definition validate_patches (request : GradeRequest) (files : patch_reads)
    (env : validate_env) : list invocation * reply GradeResponse :=
  let '(done, r) := Grading.validate_patches_reading files env in
  (done,
   match r with
   | Returned (ok, res) => Reply {| success := ok; result := res |}
   | Raised e => HTTPException 500 (str e)
   end).

End Handlers.

End Endpoints.

Module EndpointsFacts.

Import Str Session Manager Grading SessionFacts Endpoints.

(** X21: what [POST /bash] answers for a command sent to a session that is
    started, alive and not timed out: 200 with the output when a poll sees
    the sentinel; 400 with the previews when the deadline passes after at
    least one poll; 500, with the text of the [UnboundLocalError], when the
    deadline falls in the first sleep; and 500, with the text of the
    [UnicodeDecodeError], when a buffer is not well-formed UTF-8 at a poll
    before any poll has seen the sentinel. *)
Theorem bash_endpoint_answers
    (str : exn -> string) (manager : BashSessionManager) (s : BashSession) (p : Process)
    (cmd : string) (spawn_raises : option exn) (env : run_env) (k : nat) :
  Manager._session manager = Some s ->
  ready s p ->
  let answer :=
    snd (bash_execute str manager {| command := Some cmd; restart := false |}
           spawn_raises env) in
  ((k < length (polls env))%nat ->
   (forall j, (j <= k)%nat -> decodes p (polls env) j) ->
   (forall j, (j < k)%nat -> contains _sentinel (seen_stdout p (polls env) j) = false) ->
   contains _sentinel (seen_stdout p (polls env) k) = true ->
   answer =
     Reply {| output := Some (chomp (before_first _sentinel (seen_stdout p (polls env) k)));
              error := Some (chomp (seen_stderr p (polls env) k));
              base64_image := None; system := None |}) /\
  (length (polls env) = S k ->
   (forall j, (j <= k)%nat -> decodes p (polls env) j) ->
   (forall j, (j <= k)%nat -> contains _sentinel (seen_stdout p (polls env) j) = false) ->
   answer =
     HTTPException 400
       (preview_message (clipped (seen_stdout p (polls env) k))
                        (clipped (seen_stderr p (polls env) k)))) /\
  (polls env = [] ->
   answer = HTTPException 500 (str (UnboundLocalError "output"))) /\
  ((k < length (polls env))%nat ->
   (forall j, (j < k)%nat -> decodes p (polls env) j) ->
   (forall j, (j < k)%nat -> contains _sentinel (seen_stdout p (polls env) j) = false) ->
   ~ decodes p (polls env) k ->
   answer = HTTPException 500 (str UnicodeDecodeError)).
Proof.
  intros Hs Hready answer. subst answer.
  unfold bash_execute, execute_spawning. cbn [command restart]. rewrite Hs.
  cbn [_session]. rewrite Hs.
  rewrite (run_ready _ cmd env _ Hready).
  split; [|split; [|split]].
  - intros Hk Hdec Hearlier Hhit.
    rewrite (poll_breaks (polls env) None (asked cmd p) k Hk Hdec Hearlier Hhit).
    reflexivity.
  - intros Hlen Hdec Hnone.
    rewrite (poll_deadline (polls env) None (asked cmd p)).
    + rewrite Hlen. cbn [snd]. now rewrite on_timeout_raises_preview.
    + intros j Hj. apply Hdec. lia.
    + intros j Hj. apply Hnone. lia.
  - intros ->. reflexivity.
  - intros Hk Hdec Hearlier Hbad.
    rewrite (poll_chokes (polls env) None (asked cmd p) k Hk Hdec Hearlier Hbad).
    reflexivity.
Qed.

(** A manager that has just started its first session. *)
Definition serving : BashSessionManager :=
  fst (fst (execute Manager.init None true echo_hi)).

(** [str] for the exceptions the witness needs. *)
Definition str_of (e : exn) : string :=
  match e with
  | UnboundLocalError name =>
      "cannot access local variable '" +:+ name +:+
      "' where it is not associated with a value"
  | UnicodeDecodeError =>
      "'utf-8' codec can't decode byte 0xff in position 0: invalid start byte"
  | FileNotFoundError =>
      "[Errno 2] No such file or directory: '/home/root/test.patch'"
  | _ => EmptyString
  end.

Lemma bash_endpoint_on_fresh_manager :
  snd (bash_execute str_of serving {| command := Some "echo hi"; restart := false |}
         None echo_hi) =
    Reply {| output := Some "hi"; error := Some EmptyString;
             base64_image := None; system := None |}.
Proof.
  refine (proj1 (bash_endpoint_answers str_of serving shell (spawn 0) "echo hi" None
                   echo_hi 1 eq_refl _) _ _ _ _).
  - repeat split.
  - simpl. lia.
  - intros j Hj.
    assert (j = 0 \/ j = 1)%nat as [-> | ->] by lia; split; reflexivity.
  - intros j Hj. assert (j = 0)%nat as -> by lia. reflexivity.
  - reflexivity.
Defined.




End EndpointsFacts.
